(** * HackRF_Scripts: the forward-error-correction core

    A shallow embedding of the Python sources [bch.py], [bitsparser.py],
    [reedsolo.py], [reedsolo6.py], [rs.py] and [rs6.py], and the
    properties of the specification stated and settled against it.

    Python integers are unbounded and are embedded as [Z]; the bit
    operators [<<], [>>], [^], [|], [&] are [Z.shiftl], [Z.shiftr],
    [Z.lxor], [Z.lor], [Z.land], which agree with Python on negative
    numbers as well.  A Python call either returns a value or raises an
    exception: fallible functions return a [result]. *)

From Stdlib Require Import ZArith Lia List Bool Ascii String.
From stdpp Require Import base option list gmap.
Import ListNotations.
Local Open Scope string_scope.
Local Open Scope Z_scope.

(** ** Python results *)

Module Py.

(** The exceptions raised by the embedded code. *)
Inductive exn : Type :=
| NameError (name : string)
| AttributeError (name : string)
| TypeError (what : string)
| ValueError
| IndexError
| AssertionError
| ZeroDivisionError
| OverflowError
| NotImplementedError
| ParserError (what : string)
| ReedSolomonError (what : string).

Inductive result (A : Type) : Type :=
| Ok (a : A)
| Raise (e : exn).
Arguments Ok {A} a.
Arguments Raise {A} e.

Definition bind {A B} (c : result A) (k : A -> result B) : result B :=
  match c with
  | Ok a => k a
  | Raise e => Raise e
  end.

(** [for x in xs: acc = body(acc, x)] with an exception leaving the loop. *)
Fixpoint for_each {A S} (body : S -> A -> result S) (xs : list A) (acc : S)
  : result S :=
  match xs with
  | [] => Ok acc
  | x :: xs' => bind (body acc x) (for_each body xs')
  end.

(** [[f(x) for x in xs]]. *)
Fixpoint comprehension {A B} (f : A -> result B) (xs : list A)
  : result (list B) :=
  match xs with
  | [] => Ok []
  | x :: xs' =>
      bind (f x) (fun y => bind (comprehension f xs') (fun ys => Ok (y :: ys)))
  end.

(** [range(lo, hi)] and [range(n)]. *)
Definition range2 (lo hi : Z) : list Z :=
  map (fun k => lo + Z.of_nat k) (seq 0 (Z.to_nat (hi - lo))).
Definition range (n : Z) : list Z := range2 0 n.

(** [int.bit_length()]: the width of the magnitude, 0 for 0. *)
Definition bit_length (n : Z) : Z :=
  if n =? 0 then 0 else Z.log2 (Z.abs n) + 1.

(** Resolution of a sequence index: negative indices count from the
    end, anything else out of range raises IndexError. *)
Definition index {A} (l : list A) (i : Z) : result nat :=
  let n := Z.of_nat (length l) in
  if (0 <=? i) && (i <? n) then Ok (Z.to_nat i)
  else if (- n <=? i) && (i <? 0) then Ok (Z.to_nat (n + i))
  else Raise IndexError.

(** [l[i]]. *)
Definition getitem {A} (l : list A) (i : Z) : result A :=
  bind (index l i) (fun k =>
    match l !! k with
    | Some x => Ok x
    | None => Raise IndexError
    end).

(** [l[i] = x]. *)
Definition setitem {A} (l : list A) (i : Z) (x : A) : result (list A) :=
  bind (index l i) (fun k => Ok (<[k := x]> l)).

(** [a % b]. *)
Definition py_mod (a b : Z) : result Z :=
  if b =? 0 then Raise ZeroDivisionError else Ok (a mod b).

(** [l[start:]] and [l[:stop]]: a negative bound counts from the end
    and every bound is clipped to the sequence. *)
Definition clip (n i : Z) : nat :=
  Z.to_nat (if i <? 0 then Z.max (n + i) 0 else Z.min i n).
Definition slice_from {A} (l : list A) (start : Z) : list A :=
  drop (clip (Z.of_nat (length l)) start) l.
Definition slice_to {A} (l : list A) (stop : Z) : list A :=
  take (clip (Z.of_nat (length l)) stop) l.
Definition slice {A} (l : list A) (start stop : Z) : list A :=
  drop (clip (Z.of_nat (length l)) start)
       (take (clip (Z.of_nat (length l)) stop) l).

(** [max(l)]: ValueError on an empty sequence. *)
Definition py_max (l : list Z) : result Z :=
  match l with
  | [] => Raise ValueError
  | x :: l' => Ok (fold_left Z.max l' x)
  end.

(** A global name that has no binding is a NameError where it is
    evaluated. *)
Definition global {A} (name : string) (binding : option A) : result A :=
  match binding with
  | Some v => Ok v
  | None => Raise (NameError name)
  end.

(** [module.name]: AttributeError when the module defines no such name. *)
Definition getattr (names : list string) (name : string) : result unit :=
  if existsb (String.eqb name) names then Ok tt
  else Raise (AttributeError name).

(** Binding of the arguments of a call to the parameters of a [def]
    (name, has a default): too many positional arguments, a keyword that
    names no parameter or one already given by position, or a parameter
    without default left unbound, is a TypeError raised before the body
    runs. *)
Definition bind_call (params : list (string * bool)) (positional : nat)
    (keywords : list string) : result unit :=
  let by_position := map fst (take positional params) in
  let rest := drop positional params in
  if (positional <=? length params)%nat
     && forallb (fun k => existsb (fun p => String.eqb k (fst p)) rest) keywords
     && forallb (fun p => snd p || existsb (String.eqb (fst p)) keywords) rest
  then Ok tt
  else Raise (TypeError "arguments do not match the signature").

(** *** Byte sequences

    [array("B", values)] and [a[i] = v] on such an array: an item
    outside 0..255 is OverflowError, after the index has been resolved. *)
Definition byte_ok (v : Z) : bool := (0 <=? v) && (v <=? 255).

Definition array_B (values : list Z) : result (list Z) :=
  if forallb byte_ok values then Ok values else Raise OverflowError.

Definition array_store (a : list Z) (i v : Z) : result (list Z) :=
  bind (index a i) (fun k =>
    if byte_ok v then Ok (<[k := v]> a) else Raise OverflowError).

(** [bytearray(n)], [bytearray(values)] and [b[i] = v]: a negative
    count or an item outside [range(256)] is ValueError; the item is
    checked before the index. *)
Definition bytearray_zeros (n : Z) : result (list Z) :=
  if n <? 0 then Raise ValueError else Ok (repeat 0 (Z.to_nat n)).

Definition bytearray (values : list Z) : result (list Z) :=
  if forallb byte_ok values then Ok values else Raise ValueError.

Definition bytearray_store (b : list Z) (i v : Z) : result (list Z) :=
  if byte_ok v then bind (index b i) (fun k => Ok (<[k := v]> b))
  else Raise ValueError.

(** *** Bit-strings

    The codewords of [bch.py] are Python strings over the alphabet
    0/1.  [int2 s] is [int(s, 2)] on such a string; the empty string
    and a string with any other character are ValueError (the signed,
    prefixed, underscored or blank-padded literals Python's [int] also
    reads are never passed by the code and are outside the embedding). *)

Definition bit_of_ascii (c : ascii) : option Z :=
  if Ascii.eqb c "0" then Some 0
  else if Ascii.eqb c "1" then Some 1
  else None.

Fixpoint int2_from (acc : Z) (s : string) : option Z :=
  match s with
  | EmptyString => Some acc
  | String c s' =>
      match bit_of_ascii c with
      | Some d => int2_from (2 * acc + d) s'
      | None => None
      end
  end.

Definition int2 (s : string) : result Z :=
  match s with
  | EmptyString => Raise ValueError
  | _ => match int2_from 0 s with
         | Some n => Ok n
         | None => Raise ValueError
         end
  end.

Definition len (s : string) : Z := Z.of_nat (String.length s).

Definition bit_char (b : bool) : ascii := if b then "1"%char else "0"%char.

(** The binary digits of [n], most significant first, below bit [w]. *)
Fixpoint digits (w : nat) (n : Z) : string :=
  match w with
  | O => EmptyString
  | S w' => String (bit_char (Z.testbit n (Z.of_nat w'))) (digits w' n)
  end.

(** [format(n, "b")]. *)
Definition bin (n : Z) : string :=
  if n =? 0 then "0" else digits (Z.to_nat (bit_length n)) (Z.abs n).

Fixpoint zeros (k : nat) : string :=
  match k with
  | O => EmptyString
  | S k' => String "0" (zeros k')
  end.

(** [f"{n:0{width}b}"]: sign first, then zero padding up to [width]. *)
Definition format_0b (width : Z) (n : Z) : string :=
  let sign := if n <? 0 then "-" else "" in
  let body := bin n in
  let pad := Z.to_nat (width - len sign - len body) in
  (sign ++ zeros pad ++ body)%string.

End Py.

Import Py.

#[global] Instance result_bind : MBind result :=
  fun A B k c => Py.bind c k.
#[global] Instance result_ret : MRet result := @Py.Ok.

(** ** bch.py *)

Module Bch.

(** The [while shift >= 0] loop of [nndivide]; each iteration lowers
    [shift] by one, so [shift + 1] iterations are enough fuel. *)
Fixpoint nndivide_loop (fuel : nat) (poly num mask shift : Z) : Z :=
  match fuel with
  | O => num
  | S fuel' =>
      if shift >=? 0 then
        let num' := if num >=? mask then Z.lxor num (Z.shiftl poly shift)
                    else num in
        nndivide_loop fuel' poly num' (Z.shiftr mask 1) (shift - 1)
      else num
  end.

Definition nndivide (poly num : Z) : Z :=
  if num =? 0 then 0
  else
    let shift := bit_length num - bit_length poly in
    let mask := Z.shiftl 1 (bit_length num - 1) in
    nndivide_loop (Z.to_nat (shift + 1)) poly num mask shift.

(** One iteration of the loop of [nndivide] at [shift = k], for a
    generator of degree [Z.log2 poly], and the loop entered with
    [shift = k - 1] and the matching mask. *)
Definition reduce_step (poly : Z) (k : nat) (x : Z) : Z :=
  if x >=? 2 ^ (Z.of_nat k + Z.log2 poly)
  then Z.lxor x (Z.shiftl poly (Z.of_nat k)) else x.

Definition reduce (poly : Z) (k : nat) (x : Z) : Z :=
  nndivide_loop k poly x (2 ^ (Z.of_nat k - 1 + Z.log2 poly)) (Z.of_nat k - 1).

Definition ndivide (poly : Z) (bits : string) : result Z :=
  num ← int2 bits; Ok (nndivide poly num).

Definition divide (a b : string) : result Z :=
  x ← int2 a; y ← int2 b; Ok (nndivide x y).

(** The values of [modified] in the two search loops of [repair], in
    the order the loops visit them. *)
Definition flips1 (bnum blen : Z) : list Z :=
  map (fun b1 => Z.lxor bnum (Z.shiftl 1 b1)) (range blen).

Definition flips2 (bnum blen : Z) : list Z :=
  flat_map (fun b1 =>
    map (fun b2 => Z.lxor (Z.lxor bnum (Z.shiftl 1 b1)) (Z.shiftl 1 b2))
        (range2 (b1 + 1) blen))
    (range blen).

(** A [for] loop that returns at the first [modified] with a zero
    remainder. *)
Fixpoint first_zero (poly : Z) (cands : list Z) : option Z :=
  match cands with
  | [] => None
  | modified :: cands' =>
      if nndivide poly modified =? 0 then Some modified
      else first_zero poly cands'
  end.

Definition repair (poly : Z) (b : string) : result (Z * string) :=
  bnum ← int2 b;
  let remainder := nndivide poly bnum in
  if remainder =? 0 then Ok (0, b)
  else
    let blen := len b in
    match first_zero poly (flips1 bnum blen) with
    | Some modified => Ok (1, format_0b blen modified)
    | None =>
        match first_zero poly (flips2 bnum blen) with
        | Some modified => Ok (2, format_0b blen modified)
        | None => Ok (-1, b)
        end
    end.

(** *** The syndrome tables *)

(** A table slot: [None] or the tuple [(weight, pattern)]. *)
Definition entry : Type := Z * Z.
Definition table : Type := list (option entry).

(** The two kinds of assignment in [mk_syn]: the unconditional one of
    the single-bit loop and the [is None]-guarded one of the pair loop. *)
Inductive write : Type :=
| Store (e : entry)
| StoreIfNone (e : entry).

Definition pattern_of (w : write) : entry :=
  match w with Store e => e | StoreIfNone e => e end.

Definition patterns1 (bits : Z) : list entry :=
  map (fun n1 => (1, Z.shiftl 1 n1)) (range bits).

Definition patterns2 (bits : Z) : list entry :=
  flat_map (fun n1 =>
    map (fun n2 => (2, Z.lor (Z.shiftl 1 n1) (Z.shiftl 1 n2)))
        (range2 (n1 + 1) bits))
    (range bits).

(** The assignments [mk_syn] performs, in program order. *)
Definition writes (bits errors : Z) : list write :=
  map Store (patterns1 bits)
  ++ (if errors >=? 2 then map StoreIfNone (patterns2 bits) else []).

Definition do_write (poly : Z) (t : table) (w : write) : result table :=
  match w with
  | Store (wt, val) =>
      let r := nndivide poly val in
      setitem t r (Some (wt, val))
  | StoreIfNone (wt, val) =>
      let r := nndivide poly val in
      cur ← getitem t r;
      match cur with
      | None => setitem t r (Some (wt, val))
      | Some _ => Ok t
      end
  end.

Definition blank (synbits : Z) : table :=
  repeat None (Z.to_nat (2 ^ synbits)).

(** The table [mk_syn] leaves in [syndromes[poly]]. *)
Definition mk_table (poly bits synbits errors : Z) : result table :=
  for_each (do_write poly) (writes bits errors) (blank synbits).

(** [mk_syn] on the global dictionary [syndromes]. *)
Definition mk_syn (poly bits synbits errors : Z) (syndromes : gmap Z table)
  : result (gmap Z table) :=
  if (errors =? 1) || (errors =? 2) || (errors =? 3) then
    if synbits <? 0 then Raise (TypeError "can't multiply sequence by non-int")
    else
      t ← mk_table poly bits synbits errors;
      Ok (<[poly := t]> syndromes)
  else Raise AssertionError.

(** The six configurations of [init]: (poly, bits, synbits, errors). *)
Definition configurations : list (Z * Z * Z * Z) :=
  [ (29, 7, 4, 1); (465, 14, 8, 2); (41, 26, 5, 1);
    (1897, 31, 10, 2); (1207, 31, 10, 2); (3545, 31, 11, 2) ].

(** One call of [mk_syn] with the arguments of a configuration. *)
Definition init_step (syndromes : gmap Z table) (cfg : Z * Z * Z * Z)
  : result (gmap Z table) :=
  let '(poly, bits, synbits, errors) := cfg in
  mk_syn poly bits synbits errors syndromes.

Definition init : result (gmap Z table) :=
  for_each init_step configurations ∅.

End Bch.

Import Bch.


(** *** Bit flips of a bit-string

    [flip_bit i s] is [s] with the bit of weight [2^i] inverted, that
    is the character at offset [len(s) - 1 - i]. *)
Definition flip_char (c : ascii) : ascii :=
  if Ascii.eqb c "1" then "0"%char else "1"%char.

Fixpoint flip_bit (i : nat) (s : string) : string :=
  match s with
  | EmptyString => EmptyString
  | String c s' =>
      if Nat.eqb (String.length s') i then String (flip_char c) s'
      else String c (flip_bit i s')
  end.


(** The syndrome of the single-bit error at position [i]. *)
Definition syndrome1 (poly i : Z) : Z := nndivide poly (Z.shiftl 1 i).

(** Decidable check: over a codeword of [bits] bits every single-bit
    error has a non-zero syndrome and no two of them share one. *)
Definition distinct_syndromes (poly bits : Z) : bool :=
  forallb (fun i =>
    negb (syndrome1 poly i =? 0)
    && forallb (fun j => negb (syndrome1 poly j =? syndrome1 poly i)) (range i))
    (range bits).


(** *** The state [init] leaves behind, and what the tables hold *)

(** [syndromes.get(poly)] in the state a run of the module body
    leaves: nothing when the run raised. *)
Definition table_of (run : result (gmap Z table)) (poly : Z) : option table :=
  match run with
  | Ok s => s !! poly
  | Raise _ => None
  end.

(** [syndromes[poly]] once [init()] has run. *)
Definition installed (poly : Z) : option table := table_of init poly.

(** The error patterns in enumeration order: every single-bit pattern
    in ascending position, then every unordered pair in ascending
    order. *)
Definition enumeration (bits : Z) : list entry :=
  patterns1 bits ++ patterns2 bits.

(** The first pattern of [pats] whose syndrome is [r]. *)
Definition first_pattern (poly : Z) (pats : list entry) (r : Z) : option entry :=
  List.find (fun e => nndivide poly (snd e) =? r) pats.

(** Every entry of [t] is still in [t'], at the same index. *)
Definition extends (t t' : table) : Prop :=
  forall (r : nat) (e : entry), t !! r = Some (Some e) -> t' !! r = Some (Some e).

(** Decidable forms of the two table properties, for evaluation. *)
Definition entry_eqb (a b : entry) : bool :=
  (fst a =? fst b) && (snd a =? snd b).

(** The patterns paired with their syndromes, computed once. *)
Definition syndrome_list (poly : Z) (pats : list entry) : list (Z * entry) :=
  map (fun e => (nndivide poly (snd e), e)) pats.

Fixpoint lookup_first (syn : list (Z * entry)) (r : Z) : option entry :=
  match syn with
  | [] => None
  | (s, e) :: syn' => if s =? r then Some e else lookup_first syn' r
  end.

Definition holds_first (syn : list (Z * entry)) (r : Z)
    (slot : option entry) : bool :=
  match slot with
  | Some e =>
      match lookup_first syn r with
      | Some e' => entry_eqb e' e
      | None => false
      end
  | None => true
  end.

Fixpoint first_wins_from (syn : list (Z * entry)) (r : Z) (t : table) : bool :=
  match t with
  | [] => true
  | slot :: t' => holds_first syn r slot && first_wins_from syn (r + 1) t'
  end.

Definition first_wins_b (poly : Z) (pats : list entry) (rt : result table)
  : bool :=
  match rt with
  | Ok t => first_wins_from (syndrome_list poly pats) 0 t
  | Raise _ => false
  end.

Definition kept (a b : option entry) : bool :=
  match a with
  | None => true
  | Some e => match b with Some e' => entry_eqb e e' | None => false end
  end.

Fixpoint extends_b (t t' : table) : bool :=
  match t with
  | [] => true
  | a :: t1 =>
      match t' with
      | b :: t1' => kept a b && extends_b t1 t1'
      | [] => false
      end
  end.

Fixpoint monotone_run (poly : Z) (ws : list write) (t : table) : bool :=
  match ws with
  | [] => true
  | w :: ws' =>
      match do_write poly t w with
      | Ok t' => extends_b t t' && monotone_run poly ws' t'
      | Raise _ => true
      end
  end.

(** [syndromes[poly]] as one call of [mk_syn] leaves it. *)
Definition made (poly bits synbits errors : Z) : option table :=
  match mk_table poly bits synbits errors with
  | Ok t => Some t
  | Raise _ => None
  end.

Definition in_bounds_b (synbits : Z) (rt : result table) : bool :=
  match rt with
  | Ok t => Z.of_nat (length t) =? 2 ^ synbits
  | Raise _ => false
  end.


(** ** bitsparser.py *)

Module Bitsparser.

(** [s[::-1]]. *)
Fixpoint string_rev (s : string) : string :=
  match s with
  | EmptyString => EmptyString
  | String c s' => (string_rev s' ++ String c EmptyString)%string
  end.

(** The table built by [reverse_bits]:
    [[int(f"{i:08b}"[::-1], 2) for i in range(256)]]. *)
Definition lookup_table : result (list Z) :=
  comprehension (fun i => int2 (string_rev (format_0b 8 i))) (range 256).

(** [reverse_bits(data)]: the fancy index [lookup_table[data]] looks
    every element of [data] up in the table. *)
Definition reverse_bits (data : list Z) : result (list Z) :=
  tbl ← lookup_table;
  comprehension (fun d => getitem tbl d) data.

(** [bits[start::step]] for [step >= 1]. *)
Fixpoint stride_from (skip : nat) (step : nat) (bits : list Z) : list Z :=
  match bits with
  | [] => []
  | b :: bits' =>
      match skip with
      | O => b :: stride_from (step - 1) step bits'
      | S skip' => stride_from skip' step bits'
      end
  end.

Definition de_interleave (bits : list Z) (step : nat) : list Z * list Z :=
  (stride_from 0 step bits, stride_from 1 step bits).

Definition de_interleave3 (bits : list Z) : list Z * list Z * list Z :=
  (stride_from 0 3 bits, stride_from 1 3 bits, stride_from 2 3 bits).

(** [data.view(np.uint16)] on a [uint8] array: consecutive byte pairs
    read in the byte order of the machine, little-endian here; an odd
    number of bytes is ValueError. *)
Fixpoint view_uint16 (data : list Z) : result (list Z) :=
  match data with
  | [] => Ok []
  | lo :: rest =>
      match rest with
      | [] => Raise ValueError
      | hi :: rest' =>
          ws ← view_uint16 rest';
          Ok ((lo + 256 * hi) :: ws)
      end
  end.

(** [np.sum] of a [uint16] array accumulates in [uint64]. *)
Definition np_sum (ws : list Z) : Z := fold_right Z.add 0 ws mod 2 ^ 64.

Definition checksum_16 (data : list Z) : result Z :=
  ws ← view_uint16 data;
  let csum := np_sum ws in
  let csum := (Z.land csum 0xFFFF + Z.shiftr csum 16) mod 2 ^ 64 in
  Ok (Z.lxor csum 0xFFFF).

(** The groups of a successful [pattern.match(line)] that the
    non-numeric attributes are made from: group 1 (RAW or RWA), group 2,
    group 7 (absent when the N: alternative matched), group 8 and
    group 12.  The regular-expression engine itself is the library's;
    groups 3, 4, 5, 6, 9 and 10 only feed [float] and [int]
    conversions into attributes no function of the module reads back. *)
Record capture : Type := {
  tag : string;
  source : string;
  access : option string;
  ident : string;
  bits_group : string
}.

Record Message : Type := {
  swapped : bool;
  filename : string;
  access_ok : option bool;
  id : string;
  bitstream : list Z
}.

(** [re.sub(r"[\[\]<> ]", "", s)]. *)
Fixpoint strip_decorations (s : string) : string :=
  match s with
  | EmptyString => EmptyString
  | String c s' =>
      if (Ascii.eqb c "[" || Ascii.eqb c "]" || Ascii.eqb c "<"
          || Ascii.eqb c ">" || Ascii.eqb c " ")%bool
      then strip_decorations s'
      else String c (strip_decorations s')
  end.

(** [[int(bit) for bit in bitstream]]; group 12 only holds the
    decorations and the digits 0 and 1. *)
Fixpoint bits_of_string (s : string) : result (list Z) :=
  match s with
  | EmptyString => Ok []
  | String c s' =>
      match bit_of_ascii c with
      | Some d => ds ← bits_of_string s'; Ok (d :: ds)
      | None => Raise ValueError
      end
  end.

Definition parse_line (m : option capture) : result Message :=
  match m with
  | None => Raise (ParserError "Unable to parse line")
  | Some g =>
      let swapped := String.eqb (tag g) "RAW" in
      raw ← bits_of_string (strip_decorations (bits_group g));
      stored ← (if swapped then reverse_bits raw else Ok raw);
      Ok {| swapped := swapped;
            filename := source g;
            access_ok := option_map (fun a => String.eqb a "OK") (access g);
            id := ident g;
            bitstream := stored |}
  end.

(** [IRIDIUM_ACCESS] has 24 characters. *)
Definition IRIDIUM_ACCESS : string := "001100000011000011110011".

Definition extract_symbols (msg : Message) : result (list Z * list Z) :=
  if Z.of_nat (length (bitstream msg)) <? len IRIDIUM_ACCESS
  then Raise (ParserError "Bitstream too short to extract symbols.")
  else Ok (de_interleave (bitstream msg) 2).

End Bitsparser.

(** The normalisation the specification words ask of a swapped frame,
    stated from the specification to be compared with what
    [parse_line] stores: the bit at offset [8k + j] of the raw sequence
    is found at offset [8k + 7 - j] of the stored one. *)
Definition spec_reversed_bytewise (raw stored : list Z) : Prop :=
  length stored = length raw /\
  forall k j : nat,
    (j < 8)%nat -> (8 * k + 7 < length raw)%nat ->
    stored !! (8 * k + 7 - j)%nat = raw !! (8 * k + j)%nat.

(** A [uint8] value. *)
Definition uint8 (x : Z) : Prop := 0 <= x < 256.

(** The sum of the 16-bit words of a byte sequence, before any wrap. *)
Fixpoint word_sum (data : list Z) : Z :=
  match data with
  | lo :: hi :: rest => lo + 256 * hi + word_sum rest
  | _ => 0
  end.

(** Weight of byte [i] inside its little-endian word. *)
Definition byte_weight (i : nat) : Z := if Nat.even i then 1 else 256.

(** The input with bit [k] of byte [i] inverted. *)
Definition flip_input (i : nat) (k : Z) (data : list Z) : list Z :=
  alter (fun x => Z.lxor x (2 ^ k)) i data.

(** ** reedsolo.py *)

Module Reedsolo.

(** The globals [GF_EXP], [GF_LOG] and [FIELD_SIZE]; the module binds
    all three to [None] until [init_gf] has run. *)
Record gf : Type := {
  GF_EXP : list Z;
  GF_LOG : list Z;
  FIELD_SIZE : Z
}.

(** The names the module defines at top level. *)
Definition names : list string :=
  [ "GF_EXP"; "GF_LOG"; "FIELD_SIZE"; "ReedSolomonError"; "init_gf";
    "gf_add"; "gf_mul"; "gf_div"; "gf_poly_add"; "gf_poly_mul";
    "rs_generator_poly"; "rs_encode_msg"; "rs_calc_syndromes";
    "rs_find_error_locator"; "rs_correct_msg"; "RSCodec" ].

(** The four functions the module calls and never defines, as the
    bindings a caller's environment could give them; in the module as
    it is, none is bound. *)
Record namespace : Type := {
  gf_poly_eval : option (list Z -> Z -> result Z);
  gf_poly_scale : option (list Z -> Z -> result (list Z));
  rs_find_errors : option (list Z -> Z -> result (list Z));
  rs_correct_errata : option (list Z -> list Z -> list Z -> result (list Z))
}.

Definition module_namespace : namespace :=
  {| gf_poly_eval := None; gf_poly_scale := None;
     rs_find_errors := None; rs_correct_errata := None |}.

(** Subscripting a global that is still [None]. *)
Definition tables (st : option gf) : result gf :=
  match st with
  | Some g => Ok g
  | None => Raise (TypeError "'NoneType' object is not subscriptable")
  end.

Definition init_gf_step (prim field_size : Z) (acc : list Z * list Z * Z)
    (i : Z) : result (list Z * list Z * Z) :=
  let '(exp, log, x) := acc in
  exp ← array_store exp i x;
  log ← array_store log x i;
  let x := Z.shiftl x 1 in
  let x := if Z.land x field_size =? 0 then x else Z.lxor x prim in
  Ok (exp, log, x).

Definition init_gf_copy (field : Z) (exp : list Z) (i : Z)
  : result (list Z) :=
  v ← getitem exp (i - field);
  array_store exp i v.

Definition init_gf (prim generator field_size : Z) : result gf :=
  let field := field_size - 1 in
  let exp0 := repeat 1 (Z.to_nat (field * 2)) in
  let log0 := repeat 0 (Z.to_nat (field + 1)) in
  acc ← for_each (init_gf_step prim field_size) (range field) (exp0, log0, 1);
  exp ← for_each (init_gf_copy field) (range2 field (field * 2)) (fst (fst acc));
  Ok {| GF_EXP := exp; GF_LOG := snd (fst acc); FIELD_SIZE := field |}.

Definition gf_add (x y : Z) : Z := Z.lxor x y.

Definition gf_mul (st : option gf) (x y : Z) : result Z :=
  if (x =? 0) || (y =? 0) then Ok 0
  else
    g ← tables st;
    lx ← getitem (GF_LOG g) x;
    ly ← getitem (GF_LOG g) y;
    k ← py_mod (lx + ly) (FIELD_SIZE g);
    getitem (GF_EXP g) k.

Definition gf_div (st : option gf) (x y : Z) : result Z :=
  if y =? 0 then Raise ZeroDivisionError
  else if x =? 0 then Ok 0
  else
    g ← tables st;
    lx ← getitem (GF_LOG g) x;
    ly ← getitem (GF_LOG g) y;
    k ← py_mod (lx - ly + FIELD_SIZE g) (FIELD_SIZE g);
    getitem (GF_EXP g) k.

Definition gf_poly_add (p q : list Z) : result (list Z) :=
  let length := Nat.max (length p) (length q) in
  let p := (p ++ repeat 0 (length - List.length p))%list in
  let q := (q ++ repeat 0 (length - List.length q))%list in
  sums ← comprehension
            (fun i => a ← getitem p i; b ← getitem q i; Ok (gf_add a b))
            (range (Z.of_nat length));
  array_B sums.

(** [result[k] ^= v]. *)
Definition xor_into (a : list Z) (k v : Z) : result (list Z) :=
  old ← getitem a k;
  array_store a k (Z.lxor old v).

Definition enumerate (l : list Z) : list (Z * Z) :=
  combine (range (Z.of_nat (length l))) l.

Definition gf_poly_mul (st : option gf) (p q : list Z) : result (list Z) :=
  let result0 :=
    repeat 0 (Z.to_nat (Z.of_nat (length p) + Z.of_nat (length q) - 1)) in
  for_each (fun acc '(i, coeff1) =>
    for_each (fun acc '(j, coeff2) =>
      v ← gf_mul st coeff1 coeff2;
      xor_into acc (i + j) v)
      (enumerate q) acc)
    (enumerate p) result0.

Definition rs_generator_poly (st : option gf) (nsym : Z) : result (list Z) :=
  for_each (fun g i =>
    tb ← tables st;
    root ← getitem (GF_EXP tb) i;
    gf_poly_mul st g [1; root])
    (range nsym) [1].

(** The signature of [rs_encode_msg(msg, nsym)]. *)
Definition rs_encode_msg_params : list (string * bool) :=
  [("msg", false); ("nsym", false)].

Definition rs_encode_msg (st : option gf) (msg : list Z) (nsym : Z)
  : result (list Z) :=
  gen ← rs_generator_poly st nsym;
  head ← array_B msg;
  let msg_out := (head ++ repeat 0 (Z.to_nat nsym))%list in
  msg_out ← for_each (fun msg_out i =>
      coef ← getitem msg_out i;
      if coef =? 0 then Ok msg_out
      else
        for_each (fun msg_out j =>
            gj ← getitem gen j;
            v ← gf_mul st gj coef;
            xor_into msg_out (i + j) v)
          (range (Z.of_nat (length gen))) msg_out)
    (range (Z.of_nat (length msg))) msg_out;
  Ok (msg ++ slice_from msg_out (- nsym))%list.

Definition rs_calc_syndromes (ns : namespace) (st : option gf)
    (msg : list Z) (nsym : Z) : result (list Z) :=
  comprehension (fun i =>
      eval ← global "gf_poly_eval" (gf_poly_eval ns);
      tb ← tables st;
      root ← getitem (GF_EXP tb) i;
      eval msg root)
    (range nsym).

Definition rs_find_error_locator (ns : namespace) (st : option gf)
    (synd : list Z) (nsym : Z) : result (list Z) :=
  locs ← for_each (fun (locs : list Z * list Z) i =>
      let '(err_loc, old_loc) := locs in
      delta ← getitem synd i;
      delta ← for_each (fun delta j =>
          c ← getitem err_loc (- (j + 1));
          s ← getitem synd (i - j);
          v ← gf_mul st c s;
          Ok (Z.lxor delta v))
        (range2 1 (Z.of_nat (length err_loc))) delta;
      let old_loc := (old_loc ++ [0])%list in
      if delta =? 0 then Ok (err_loc, old_loc)
      else
        locs ← (if (length err_loc <? length old_loc)%nat then
            scale ← global "gf_poly_scale" (gf_poly_scale ns);
            new_loc ← scale old_loc delta;
            scale ← global "gf_poly_scale" (gf_poly_scale ns);
            inv ← gf_div st 1 delta;
            old_loc ← scale err_loc inv;
            Ok (new_loc, old_loc)
          else Ok (err_loc, old_loc));
        scale ← global "gf_poly_scale" (gf_poly_scale ns);
        scaled ← scale (snd locs) delta;
        err_loc ← gf_poly_add (fst locs) scaled;
        Ok (err_loc, snd locs))
    (range nsym) ([1], [1]);
  Ok (fst locs).

Definition rs_correct_msg (ns : namespace) (st : option gf)
    (msg_in : list Z) (nsym : Z) : result (list Z * list Z) :=
  msg_out ← array_B msg_in;
  synd ← rs_calc_syndromes ns st msg_out nsym;
  top ← py_max synd;
  if top =? 0 then Ok (slice_to msg_out (- nsym), slice_from msg_out (- nsym))
  else
    err_loc ← rs_find_error_locator ns st synd nsym;
    find ← global "rs_find_errors" (rs_find_errors ns);
    err_pos ← find err_loc (Z.of_nat (length msg_out));
    match err_pos with
    | [] => Raise (ReedSolomonError "Could not locate error")
    | _ =>
        correct ← global "rs_correct_errata" (rs_correct_errata ns);
        msg_out ← correct msg_out synd err_pos;
        synd ← rs_calc_syndromes ns st msg_out nsym;
        top ← py_max synd;
        if top >? 0 then Raise (ReedSolomonError "Could not correct message")
        else Ok (slice_to msg_out (- nsym), slice_from msg_out (- nsym))
    end.

(** [RSCodec(nsym)]: the constructor runs [init_gf()] with its
    defaults; [encode] and [decode] then work on those tables. *)
Definition RSCodec_init : result gf := init_gf 0x11d 2 256.

Definition RSCodec_encode (nsym : Z) (data : list Z) : result (list Z) :=
  g ← RSCodec_init; rs_encode_msg (Some g) data nsym.

Definition RSCodec_decode (nsym : Z) (data : list Z)
  : result (list Z * list Z) :=
  g ← RSCodec_init; rs_correct_msg module_namespace (Some g) data nsym.

End Reedsolo.


(** ** reedsolo6.py *)

Module Reedsolo6.

(** The globals [GF_EXP], [GF_LOG] and [FIELD_SIZE]. *)
Record gf : Type := {
  GF_EXP : list Z;
  GF_LOG : list Z;
  FIELD_SIZE : Z
}.

(** Their values when the module has been loaded and [init_tables] has
    not run: [bytearray([1] * 512)], [bytearray(256)], [2 ** 8 - 1]. *)
Definition initial : gf :=
  {| GF_EXP := repeat 1 512; GF_LOG := repeat 0 256; FIELD_SIZE := 255 |}.

Definition names : list string :=
  [ "itertools"; "ReedSolomonError"; "GF_EXP"; "GF_LOG"; "FIELD_SIZE";
    "init_tables"; "gf_add"; "gf_multiply"; "gf_multiply_no_lut";
    "gf_poly_add"; "gf_poly_multiply"; "rs_generator_poly";
    "rs_encode_msg"; "rs_decode_msg"; "RSCodec" ].

(** The two functions the module calls and never defines. *)
Record namespace : Type := {
  gf_exp : option (Z -> Z -> result Z);
  gf_poly_eval : option (list Z -> Z -> result Z)
}.

Definition module_namespace : namespace :=
  {| gf_exp := None; gf_poly_eval := None |}.

(** The [while y] loop of [gf_multiply_no_lut]; [y] loses a bit at
    each iteration, so [bit_length y] iterations are enough fuel for
    [y >= 0] (a negative [y] never reaches 0 and is outside the
    embedding). *)
Fixpoint no_lut_loop (fuel : nat) (x y prim field_char result : Z) : Z :=
  match fuel with
  | O => result
  | S fuel' =>
      if y =? 0 then result
      else
        let result := if Z.land y 1 =? 0 then result else Z.lxor result x in
        let y := Z.shiftr y 1 in
        let x := Z.shiftl x 1 in
        let x := if (prim >? 0) && negb (Z.land x field_char =? 0)
                 then Z.lxor x prim else x in
        no_lut_loop fuel' x y prim field_char result
  end.

Definition gf_multiply_no_lut (x y prim field_char : Z) : Z :=
  no_lut_loop (Z.to_nat (bit_length y)) x y prim field_char 0.

Definition init_tables_step (prim generator field : Z)
    (acc : list Z * list Z * Z) (i : Z) : result (list Z * list Z * Z) :=
  let '(exp, log, x) := acc in
  exp ← bytearray_store exp i x;
  log ← bytearray_store log x i;
  Ok (exp, log, gf_multiply_no_lut x generator prim (field + 1)).

Definition init_tables_copy (field : Z) (exp : list Z) (i : Z)
  : result (list Z) :=
  v ← getitem exp (i - field);
  bytearray_store exp i v.

(** The signature of [init_tables(prim=0x11d, generator=2, field_exp=8)]. *)
Definition init_tables_params : list (string * bool) :=
  [("prim", true); ("generator", true); ("field_exp", true)].

Definition init_tables (prim generator field_exp : Z) : result gf :=
  if field_exp <? 0 then Raise (TypeError "cannot convert 'float' object to bytearray")
  else
    let field := 2 ^ field_exp - 1 in
    exp0 ← bytearray_zeros (field * 2);
    log0 ← bytearray_zeros (field + 1);
    acc ← for_each (init_tables_step prim generator field) (range field)
                   (exp0, log0, 1);
    exp ← for_each (init_tables_copy field) (range2 field (field * 2))
                   (fst (fst acc));
    Ok {| GF_EXP := exp; GF_LOG := snd (fst acc); FIELD_SIZE := field |}.

Definition gf_add (x y : Z) : Z := Z.lxor x y.

Definition gf_multiply (g : gf) (x y : Z) : result Z :=
  if (x =? 0) || (y =? 0) then Ok 0
  else
    lx ← getitem (GF_LOG g) x;
    ly ← getitem (GF_LOG g) y;
    k ← py_mod (lx + ly) (FIELD_SIZE g);
    getitem (GF_EXP g) k.

(** [r[k] ^= v]. *)
Definition xor_into (r : list Z) (k v : Z) : result (list Z) :=
  old ← getitem r k;
  bytearray_store r k (Z.lxor old v).

Definition gf_poly_add (p q : list Z) : result (list Z) :=
  let length := Z.max (Z.of_nat (length p)) (Z.of_nat (length q)) in
  r ← bytearray_zeros length;
  r ← for_each (fun r i =>
        v ← getitem p i;
        bytearray_store r (i + length - Z.of_nat (List.length p)) v)
      (range (Z.of_nat (List.length p))) r;
  for_each (fun r i =>
      v ← getitem q i;
      xor_into r (i + length - Z.of_nat (List.length q)) v)
    (range (Z.of_nat (List.length q))) r.

Definition gf_poly_multiply (g : gf) (p q : list Z) : result (list Z) :=
  r ← bytearray_zeros (Z.of_nat (length p) + Z.of_nat (length q) - 1);
  for_each (fun r j =>
    for_each (fun r i =>
        a ← getitem p i;
        b ← getitem q j;
        v ← gf_multiply g a b;
        xor_into r (i + j) v)
      (range (Z.of_nat (length p))) r)
    (range (Z.of_nat (length q))) r.

Definition rs_generator_poly (ns : namespace) (g : gf) (nsym generator : Z)
  : result (list Z) :=
  for_each (fun gen i =>
      power ← global "gf_exp" (gf_exp ns);
      root ← power generator i;
      gf_poly_multiply g gen [1; root])
    (range nsym) [1].

(** The signature of
    [rs_encode_msg(msg, nsym, generator=2, gen=None)]. *)
Definition rs_encode_msg_params : list (string * bool) :=
  [("msg", false); ("nsym", false); ("generator", true); ("gen", true)].

Definition rs_encode_msg (ns : namespace) (g : gf) (msg : list Z)
    (nsym generator : Z) (gen : option (list Z)) : result (list Z) :=
  gen ← match gen with
        | None => rs_generator_poly ns g nsym generator
        | Some gen => Ok gen
        end;
  msg ← bytearray msg;
  pad ← bytearray_zeros (Z.of_nat (length gen) - 1);
  let padded_msg := (msg ++ pad)%list in
  padded_msg ← for_each (fun padded_msg i =>
      coef ← getitem padded_msg i;
      if coef =? 0 then Ok padded_msg
      else
        for_each (fun padded_msg j =>
            gj ← getitem gen j;
            v ← gf_multiply g gj coef;
            xor_into padded_msg (i + j) v)
          (range (Z.of_nat (length gen))) padded_msg)
    (range (Z.of_nat (length msg))) padded_msg;
  Ok (msg ++ slice_from padded_msg (- Z.of_nat (length gen) + 1))%list.

Definition rs_decode_msg (ns : namespace) (g : gf) (msg : list Z)
    (nsym generator : Z) : result (list Z * list Z) :=
  synd ← comprehension (fun i =>
      eval ← global "gf_poly_eval" (gf_poly_eval ns);
      power ← global "gf_exp" (gf_exp ns);
      root ← power generator i;
      eval msg root)
    (range nsym);
  top ← py_max synd;
  if top =? 0 then Ok (slice_to msg (- nsym), slice_from msg (- nsym))
  else Raise NotImplementedError.

End Reedsolo6.

(** ** rs.py *)

Module Rs.

Definition GENERATOR : Z := 2.
Definition FCR : Z := 0.
Definition NSYM : Z := 8.
Definition ELEN : Z := 8.
Definition C_EXP : Z := 8.
Definition PRIM : Z := 0x11d.

(** The statement the module runs when it is loaded:
    [reedsolo.init_tables(prim=PRIM, generator=GENERATOR, c_exp=C_EXP)]. *)
Definition module_body : result unit :=
  getattr Reedsolo.names "init_tables".

Fixpoint bytes_eqb (a b : list Z) : bool :=
  match a, b with
  | [], [] => true
  | x :: a', y :: b' => (x =? y) && bytes_eqb a' b'
  | _, _ => false
  end.

(** The [try] block of [rs_check]. *)
Definition rs_check_try (st : option Reedsolo.gf) (data : list Z)
  : result bool :=
  let mlen := Z.of_nat (length data) - NSYM in
  _ ← getattr Reedsolo.names "rs_encode_msg";
  _ ← bind_call Reedsolo.rs_encode_msg_params 2 ["fcr"];
  encoded_msg ← Reedsolo.rs_encode_msg st (slice_to data mlen) (NSYM + ELEN);
  provided ← bytearray (slice_from data mlen);
  Ok (bytes_eqb provided (slice encoded_msg mlen (Z.of_nat (length data)))).

(** [rs_check(data)]: [except Exception] turns every exception of the
    block into [False]. *)
Definition rs_check (st : option Reedsolo.gf) (data : list Z) : bool :=
  match rs_check_try st data with
  | Ok b => b
  | Raise _ => false
  end.

(** The signature of [reedsolo.rs_correct_msg(msg_in, nsym)]. *)
Definition rs_correct_msg_params : list (string * bool) :=
  [("msg_in", false); ("nsym", false)].

(** [rs_fix(data)]: the outcome, and [data] as the call leaves it
    ([data += [0] * ELEN] extends the caller's object in place).  Only
    ReedSolomonError and ZeroDivisionError are caught. *)
Definition rs_fix (st : option Reedsolo.gf) (data : list Z)
  : result (bool * option (list Z) * option (list Z)) * list Z :=
  let data := (data ++ repeat 0 (Z.to_nat ELEN))%list in
  let outcome :=
    _ ← getattr Reedsolo.names "rs_correct_msg";
    _ ← bind_call rs_correct_msg_params 4 ["erase_pos"];
    fixed ← Reedsolo.rs_correct_msg Reedsolo.module_namespace st data
              (NSYM + ELEN);
    Ok (true, Some (fst fixed), Some (slice_to (snd fixed) NSYM)) in
  match outcome with
  | Raise (ReedSolomonError _) | Raise ZeroDivisionError =>
      (Ok (false, None, None), data)
  | _ => (outcome, data)
  end.

End Rs.

(** ** rs6.py *)

Module Rs6.

Definition GENERATOR : Z := 2.
Definition FCR : Z := 54.
Definition NSYM : Z := 10.
Definition ELEN : Z := 0.
Definition C_EXP : Z := 6.
Definition PRIM : Z := 0x43.

(** The statement the module runs when it is loaded:
    [reedsolo6.init_tables(prim=PRIM, generator=GENERATOR, c_exp=C_EXP)]. *)
Definition module_body : result Reedsolo6.gf :=
  _ ← getattr Reedsolo6.names "init_tables";
  _ ← bind_call Reedsolo6.init_tables_params 0 ["prim"; "generator"; "c_exp"];
  Reedsolo6.init_tables PRIM GENERATOR 8.

Definition rs_check_try (g : Reedsolo6.gf) (data : list Z) : result bool :=
  let message_length := Z.of_nat (length data) - NSYM in
  _ ← getattr Reedsolo6.names "rs_encode_msg";
  _ ← bind_call Reedsolo6.rs_encode_msg_params 2 ["fcr"];
  encoded_msg ← Reedsolo6.rs_encode_msg Reedsolo6.module_namespace g
                   (slice_to data message_length) (NSYM + ELEN) 2 None;
  provided ← bytearray (slice_from data message_length);
  Ok (Rs.bytes_eqb provided (slice_from encoded_msg message_length)).

Definition rs_check (g : Reedsolo6.gf) (data : list Z) : bool :=
  match rs_check_try g data with
  | Ok b => b
  | Raise _ => false
  end.

Definition rs_fix (g : Reedsolo6.gf) (data : list Z)
  : result (bool * option (list Z) * option (list Z)) * list Z :=
  let data := (data ++ repeat 0 (Z.to_nat ELEN))%list in
  let outcome : result (bool * option (list Z) * option (list Z)) :=
    _ ← getattr Reedsolo6.names "rs_correct_msg";
    Raise (TypeError "rs_correct_msg has no definition to call") in
  match outcome with
  | Raise (ReedSolomonError _) | Raise ZeroDivisionError =>
      (Ok (false, None, None), data)
  | _ => (outcome, data)
  end.

End Rs6.


(** The capture of the line
    [RAW: f 1.0 1626000000 A:OK I:1 100% 0.5 8 10000000]. *)
Definition swapped_capture : Bitsparser.capture :=
  {| Bitsparser.tag := "RAW"; Bitsparser.source := "f"; Bitsparser.access := Some "OK"; Bitsparser.ident := "1";
     Bitsparser.bits_group := "10000000" |}.

(** [multiply(a, b)] of [bch.py]: the [while b > 0] loop consumes one
    bit of [b] at each iteration. *)
Fixpoint multiply_loop (fuel : nat) (a b idx result : Z) : Z :=
  match fuel with
  | O => result
  | S fuel' =>
      if b >? 0 then
        let result := if b mod 2 =? 0 then result
                      else Z.lxor result (Z.shiftl a idx) in
        multiply_loop fuel' a (Z.shiftr b 1) (idx + 1) result
      else result
  end.

Definition multiply (a b : Z) : Z :=
  multiply_loop (Z.to_nat (bit_length b)) a b 0 0.

(** Decidable checks on a configuration, for evaluation. *)
Fixpoint distinctb (l : list Z) : bool :=
  match l with
  | [] => true
  | x :: l' => negb (existsb (Z.eqb x) l') && distinctb l'
  end.

(** No pattern the configuration enumerates has a zero syndrome and no
    two of them share one. *)
Definition patterns_separated (poly : Z) (pats : list entry) : bool :=
  let syn := map (fun e => nndivide poly (snd e)) pats in
  forallb (fun s => negb (s =? 0)) syn && distinctb syn.

(** Every pattern the configuration enumerates is found in the table
    under its own syndrome. *)
Definition table_complete_b (poly : Z) (pats : list entry) (rt : result table)
  : bool :=
  match rt with
  | Ok t =>
      forallb (fun e =>
        match getitem t (nndivide poly (snd e)) with
        | Ok (Some e') => entry_eqb e' e
        | _ => false
        end) pats
  | Raise _ => false
  end.


(** The relation between a byte and its mirror image: bit [j] of [y]
    is bit [7 - j] of [x]. *)
Definition mirrored (x y : Z) : Prop :=
  uint8 y /\ forall j, 0 <= j < 8 -> Z.testbit y j = Z.testbit x (7 - j).

(** Decidable check that a table maps every byte to its mirror image. *)
Definition table_mirrors (rt : result (list Z)) : bool :=
  match rt with
  | Ok tbl =>
      forallb (fun x =>
        match getitem tbl x with
        | Ok y =>
            (0 <=? y) && (y <? 256)
            && forallb (fun j => Bool.eqb (Z.testbit y j) (Z.testbit x (7 - j)))
                 (range 8)
        | Raise _ => false
        end) (range 256)
  | Raise _ => false
  end.


(** Decidable checks on the field tables, for evaluation: the two
    tables invert each other and the upper half of [GF_EXP] repeats
    the lower one. *)
Definition ok_is (r : result Z) (v : Z) : bool :=
  match r with
  | Ok x => x =? v
  | Raise _ => false
  end.

Definition tables_inverse_b (exp log : list Z) (field : Z) : bool :=
  forallb (fun x =>
      match getitem log x with
      | Ok l => (0 <=? l) && (l <? field) && ok_is (getitem exp l) x
      | Raise _ => false
      end) (range2 1 (field + 1))
  && forallb (fun i =>
      match getitem exp i with
      | Ok y => (1 <=? y) && (y <=? field) && ok_is (getitem log y) i
                && ok_is (getitem exp (i + field)) y
      | Raise _ => false
      end) (range field)
  && ok_is (getitem log 1) 0.

(** The product and the quotient by table lookup, as [gf_mul],
    [gf_div] and [gf_multiply] compute them once the tables exist. *)
Definition lut_mul (exp log : list Z) (field x y : Z) : result Z :=
  if (x =? 0) || (y =? 0) then Ok 0
  else
    lx ← getitem log x;
    ly ← getitem log y;
    k ← py_mod (lx + ly) field;
    getitem exp k.

Definition lut_div (exp log : list Z) (field x y : Z) : result Z :=
  if y =? 0 then Raise ZeroDivisionError
  else if x =? 0 then Ok 0
  else
    lx ← getitem log x;
    ly ← getitem log y;
    k ← py_mod (lx - ly + field) field;
    getitem exp k.

Definition gf_tables_b (rg : result Reedsolo.gf) : bool :=
  match rg with
  | Ok g =>
      (Reedsolo.FIELD_SIZE g =? 255)
      && tables_inverse_b (Reedsolo.GF_EXP g) (Reedsolo.GF_LOG g) 255
  | Raise _ => false
  end.

Definition gf6_tables_b (rg : result Reedsolo6.gf) : bool :=
  match rg with
  | Ok g =>
      (Reedsolo6.FIELD_SIZE g =? 63)
      && tables_inverse_b (Reedsolo6.GF_EXP g) (Reedsolo6.GF_LOG g) 63
  | Raise _ => false
  end.

(** The table-driven product of GF(2^6) against the product computed
    without tables, over every pair of field elements. *)
Definition gf6_laws_b (rg : result Reedsolo6.gf) : bool :=
  match rg with
  | Ok g =>
      forallb (fun x =>
        forallb (fun y =>
          match Reedsolo6.gf_multiply g x y with
          | Ok z =>
              (0 <=? z) && (z <=? 63)
              && (z =? Reedsolo6.gf_multiply_no_lut x y 0x43 64)
          | Raise _ => false
          end) (range 64)) (range 64)
  | Raise _ => false
  end.


(** A sequence of [n] bytes. *)
Definition bytes_n (n : Z) (m : list Z) : Prop :=
  Z.of_nat (length m) = n /\ Forall uint8 m.

(** * Properties *)

(** ** Bits of non-negative integers *)

Lemma lt_pow2_bits (x e : Z) :
  0 <= e -> 0 <= x ->
  (x < 2 ^ e <-> forall i, e <= i -> Z.testbit x i = false).
Proof.
  intros He Hx. split.
  - intros Hlt i Hi.
    destruct (Z.eq_dec x 0) as [-> | Hne]; [apply Z.bits_0 |].
    apply Z.bits_above_log2; [lia |].
    assert (Z.log2 x < e) by (apply Z.log2_lt_pow2; lia). lia.
  - intros Hbits.
    destruct (Z_lt_le_dec x (2 ^ e)) as [? | Hge]; [assumption | exfalso].
    assert (0 < x) by (pose proof (Z.pow_pos_nonneg 2 e); lia).
    assert (e <= Z.log2 x) by (apply Z.log2_le_pow2; lia).
    pose proof (Z.bit_log2 x ltac:(lia)) as Hb.
    rewrite Hbits in Hb by lia. discriminate.
Qed.

Lemma top_bit (x e : Z) :
  0 <= e -> 0 <= x < 2 ^ (e + 1) -> (x >=? 2 ^ e) = Z.testbit x e.
Proof.
  intros He [Hx Hlt].
  rewrite Z.pow_add_r, Z.pow_1_r in Hlt by lia.
  assert (Hp : 0 < 2 ^ e) by (apply Z.pow_pos_nonneg; lia).
  destruct (Z.testbit x e) eqn:Hb.
  - apply Z.testbit_true in Hb; [| lia].
    apply Z.geb_le.
    destruct (Z_lt_le_dec x (2 ^ e)) as [Hs | ?]; [| lia].
    rewrite Z.div_small in Hb by lia. discriminate.
  - apply Z.testbit_false in Hb; [| lia].
    destruct (Z_lt_le_dec x (2 ^ e)) as [Hs | Hs]; [rewrite Z.geb_leb; apply Z.leb_gt; lia |].
    exfalso.
    assert (Hq : x / 2 ^ e = 1)
      by (symmetry; apply Z.div_unique with (r := x - 2 ^ e); lia).
    rewrite Hq in Hb. discriminate.
Qed.

Lemma lxor_range (a b e : Z) :
  0 <= e -> 0 <= a < 2 ^ e -> 0 <= b < 2 ^ e -> 0 <= Z.lxor a b < 2 ^ e.
Proof.
  intros He [Ha Hae] [Hb Hbe].
  assert (0 <= Z.lxor a b) by (apply Z.lxor_nonneg; lia).
  split; [assumption |].
  apply lt_pow2_bits; [lia .. |]. intros i Hi.
  rewrite Z.lxor_spec.
  rewrite (proj1 (lt_pow2_bits a e He Ha) Hae i Hi).
  rewrite (proj1 (lt_pow2_bits b e He Hb) Hbe i Hi). reflexivity.
Qed.

(** ** [nndivide] is the remainder of a GF(2) polynomial division *)

Section Division.

Variable poly : Z.
Hypothesis poly_pos : 0 < poly.

(** Degree of the generator polynomial. *)
Let d : Z := Z.log2 poly.

Local Abbreviation reduce_step := (Bch.reduce_step poly).
Local Abbreviation reduce := (Bch.reduce poly).

Lemma d_nonneg : 0 <= d.
Proof. apply Z.log2_nonneg. Qed.

Lemma poly_range : 2 ^ d <= poly < 2 ^ (d + 1).
Proof. pose proof (Z.log2_spec poly poly_pos). unfold d. lia. Qed.

Lemma shifted_poly_range (k : nat) :
  2 ^ (Z.of_nat k + d) <= Z.shiftl poly (Z.of_nat k) < 2 ^ (Z.of_nat k + d + 1).
Proof.
  pose proof poly_range as [Hlo Hhi]. pose proof d_nonneg.
  rewrite Z.shiftl_mul_pow2 by lia.
  replace (Z.of_nat k + d + 1) with ((d + 1) + Z.of_nat k) by lia.
  replace (Z.of_nat k + d) with (d + Z.of_nat k) by lia.
  rewrite !(Z.pow_add_r 2 _ (Z.of_nat k)) by lia.
  assert (0 < 2 ^ Z.of_nat k) by (apply Z.pow_pos_nonneg; lia).
  nia.
Qed.

Lemma reduce_S (k : nat) (x : Z) :
  reduce (S k) x = reduce k (reduce_step k x).
Proof.
  unfold Bch.reduce, Bch.reduce_step. cbn [nndivide_loop].
  replace (Z.of_nat (S k) - 1) with (Z.of_nat k) by lia.
  assert (Hge : (Z.of_nat k >=? 0) = true) by (apply Z.geb_le; lia).
  rewrite Hge. f_equal.
  pose proof d_nonneg. fold d.
  rewrite Z.shiftr_div_pow2, Z.pow_1_r by lia.
  destruct (Z.eq_dec (Z.of_nat k + d) 0) as [E | E].
  - rewrite E. replace (Z.of_nat k - 1 + d) with (-1) by lia. reflexivity.
  - replace (Z.of_nat k + d) with ((Z.of_nat k - 1 + d) + 1) at 1 by lia.
    rewrite Z.pow_add_r, Z.pow_1_r by lia.
    apply Z.div_mul; lia.
Qed.

Lemma reduce_step_range (k : nat) (x : Z) :
  0 <= x < 2 ^ (Z.of_nat (S k) + d) ->
  0 <= reduce_step k x < 2 ^ (Z.of_nat k + d).
Proof.
  intros Hx. pose proof d_nonneg as Hd.
  replace (Z.of_nat (S k) + d) with (Z.of_nat k + d + 1) in Hx by lia.
  unfold Bch.reduce_step. fold d.
  rewrite (top_bit x (Z.of_nat k + d)) by lia.
  destruct (Z.testbit x (Z.of_nat k + d)) eqn:Hb.
  - pose proof (shifted_poly_range k) as HP.
    assert (0 <= Z.lxor x (Z.shiftl poly (Z.of_nat k)))
      by (apply Z.lxor_nonneg; lia).
    split; [assumption |].
    apply lt_pow2_bits; [lia .. |]. intros i Hi.
    rewrite Z.lxor_spec.
    destruct (Z.eq_dec i (Z.of_nat k + d)) as [-> | Hne].
    + rewrite Hb.
      rewrite <- (top_bit (Z.shiftl poly (Z.of_nat k))) by lia.
      replace (Z.shiftl poly (Z.of_nat k) >=? 2 ^ (Z.of_nat k + d)) with true
        by (symmetry; apply Z.geb_le; lia).
      reflexivity.
    + rewrite (proj1 (lt_pow2_bits x (Z.of_nat k + d + 1) ltac:(lia) ltac:(lia))
                 ltac:(lia) i ltac:(lia)).
      rewrite (proj1 (lt_pow2_bits (Z.shiftl poly (Z.of_nat k))
                 (Z.of_nat k + d + 1) ltac:(lia) ltac:(lia)) ltac:(lia) i ltac:(lia)).
      reflexivity.
  - split; [lia |].
    rewrite <- (top_bit x (Z.of_nat k + d)) in Hb by lia.
    rewrite Z.geb_leb in Hb. apply Z.leb_gt in Hb. lia.
Qed.

Lemma reduce_step_lxor (k : nat) (a b : Z) :
  0 <= a < 2 ^ (Z.of_nat (S k) + d) ->
  0 <= b < 2 ^ (Z.of_nat (S k) + d) ->
  reduce_step k (Z.lxor a b) = Z.lxor (reduce_step k a) (reduce_step k b).
Proof.
  intros Ha Hb. pose proof d_nonneg as Hd.
  assert (Hab : 0 <= Z.lxor a b < 2 ^ (Z.of_nat (S k) + d))
    by (apply lxor_range; [lia | assumption ..]).
  replace (Z.of_nat (S k) + d) with (Z.of_nat k + d + 1) in * by lia.
  unfold Bch.reduce_step. fold d.
  rewrite !top_bit by lia.
  rewrite Z.lxor_spec.
  set (P := Z.shiftl poly (Z.of_nat k)).
  destruct (Z.testbit a _), (Z.testbit b _); cbn [xorb].
  - rewrite (Z.lxor_comm b P), Z.lxor_assoc, <- (Z.lxor_assoc P P b).
    rewrite Z.lxor_nilpotent, Z.lxor_0_l. reflexivity.
  - rewrite !Z.lxor_assoc. f_equal. apply Z.lxor_comm.
  - rewrite Z.lxor_assoc. reflexivity.
  - reflexivity.
Qed.

Lemma reduce_range (k : nat) :
  forall x, 0 <= x < 2 ^ (Z.of_nat k + d) -> 0 <= reduce k x < 2 ^ d.
Proof.
  induction k as [| k IH]; intros x Hx.
  - exact Hx.
  - rewrite reduce_S. apply IH, reduce_step_range, Hx.
Qed.

Lemma reduce_lxor (k : nat) :
  forall a b,
    0 <= a < 2 ^ (Z.of_nat k + d) -> 0 <= b < 2 ^ (Z.of_nat k + d) ->
    reduce k (Z.lxor a b) = Z.lxor (reduce k a) (reduce k b).
Proof.
  induction k as [| k IH]; intros a b Ha Hb.
  - reflexivity.
  - rewrite !reduce_S, reduce_step_lxor by assumption.
    apply IH; apply reduce_step_range; assumption.
Qed.

(** A dividend that fits a narrower window is not touched by the
    iterations above it. *)
Lemma reduce_widen (k j : nat) (x : Z) :
  0 <= x < 2 ^ (Z.of_nat k + d) -> reduce (j + k) x = reduce k x.
Proof.
  intros Hx. pose proof d_nonneg as Hd.
  induction j as [| j IH]; [reflexivity |].
  cbn [Nat.add]. rewrite reduce_S.
  unfold Bch.reduce_step. fold d.
  replace (x >=? 2 ^ (Z.of_nat (j + k) + d)) with false; [exact IH |].
  symmetry. rewrite Z.geb_leb. apply Z.leb_gt.
  assert (2 ^ (Z.of_nat k + d) <= 2 ^ (Z.of_nat (j + k) + d))
    by (apply Z.pow_le_mono_r; lia).
  lia.
Qed.

Lemma nndivide_reduce (k : nat) (n : Z) :
  0 <= n < 2 ^ (Z.of_nat k + d) -> nndivide poly n = reduce k n.
Proof.
  intros Hn. pose proof d_nonneg as Hd.
  unfold nndivide. destruct (Z.eqb_spec n 0) as [-> | Hne].
  - symmetry. pose proof (reduce_range k 0 Hn) as Hr.
    clear Hn. induction k as [| k IH]; [reflexivity |].
    rewrite reduce_S. unfold Bch.reduce_step.
    replace (0 >=? 2 ^ (Z.of_nat k + Z.log2 poly)) with false.
    + apply IH. apply reduce_range.
      split; [lia | apply Z.pow_pos_nonneg; lia].
    + symmetry. rewrite Z.geb_leb. apply Z.leb_gt.
      apply Z.pow_pos_nonneg; lia.
  - assert (Hpos : 0 < n) by lia.
    unfold bit_length.
    destruct (Z.eqb_spec n 0) as [? | _]; [lia |].
    destruct (Z.eqb_spec poly 0) as [? | _]; [lia |].
    rewrite !Z.abs_eq by lia. fold d.
    pose proof (Z.log2_spec n Hpos) as [Hlo Hhi].
    pose proof (Z.log2_nonneg n) as Hl.
    set (s := Z.log2 n + 1 - (d + 1)).
    rewrite Z.shiftl_1_l.
    replace (Z.log2 n + 1 - 1) with (Z.log2 n) by lia.
    (* the window [k0] the loop itself uses *)
    set (k0 := Z.to_nat (s + 1)).
    assert (Hfit : 0 <= n < 2 ^ (Z.of_nat k0 + d)).
    { split; [lia |]. unfold k0, s.
      destruct (Z_lt_le_dec (Z.log2 n) d) as [Hs | Hs].
      - replace (Z.to_nat _) with 0%nat by lia.
        change (Z.of_nat 0) with 0. rewrite Z.add_0_l.
        assert (2 ^ Z.succ (Z.log2 n) <= 2 ^ d) by (apply Z.pow_le_mono_r; lia).
        eapply Z.lt_le_trans; eassumption.
      - rewrite Z2Nat.id by lia.
        replace (Z.log2 n + 1 - (d + 1) + 1 + d) with (Z.succ (Z.log2 n)) by lia.
        exact Hhi. }
    assert (Hloop : nndivide_loop k0 poly n (2 ^ Z.log2 n) s = reduce k0 n).
    { unfold Bch.reduce. unfold k0, s in *.
      destruct (Z_lt_le_dec (Z.log2 n) d) as [Hs | Hs].
      - replace (Z.to_nat _) with 0%nat by lia. reflexivity.
      - rewrite Z2Nat.id by lia. f_equal; [f_equal |]; lia. }
    rewrite Hloop.
    destruct (Nat.le_gt_cases k0 k) as [Hle | Hgt].
    + replace k with ((k - k0) + k0)%nat by lia.
      symmetry. apply reduce_widen. exact Hfit.
    + replace k0 with ((k0 - k) + k)%nat by lia.
      apply reduce_widen. exact Hn.
Qed.

End Division.

Lemma below_pow2 (a e : Z) : 0 <= a -> Z.log2 a < e -> a < 2 ^ e.
Proof.
  intros Ha He.
  destruct (Z.eq_dec a 0) as [-> | Hne].
  - apply Z.pow_pos_nonneg; [lia |]. pose proof (Z.log2_nonneg 0). lia.
  - apply Z.log2_lt_pow2; lia.
Qed.

Lemma nndivide_range (poly n : Z) :
  0 < poly -> 0 <= n -> 0 <= nndivide poly n < 2 ^ Z.log2 poly.
Proof.
  intros Hp Hn.
  set (k := Z.to_nat (Z.log2 n + 1)).
  assert (Hfit : 0 <= n < 2 ^ (Z.of_nat k + Z.log2 poly)).
  { split; [assumption |]. apply below_pow2; [assumption |].
    pose proof (Z.log2_nonneg n). pose proof (Z.log2_nonneg poly). lia. }
  rewrite (nndivide_reduce poly Hp k n Hfit).
  apply reduce_range; assumption.
Qed.

(** The remainder is additive over GF(2): the syndrome of a sum of two
    words is the sum of their syndromes. *)
Lemma nndivide_lxor (poly a b : Z) :
  0 < poly -> 0 <= a -> 0 <= b ->
  nndivide poly (Z.lxor a b) = Z.lxor (nndivide poly a) (nndivide poly b).
Proof.
  intros Hp Ha Hb.
  set (k := Z.to_nat (Z.log2 a + Z.log2 b + 1)).
  pose proof (Z.log2_nonneg a). pose proof (Z.log2_nonneg b).
  pose proof (Z.log2_nonneg poly).
  assert (Hfa : 0 <= a < 2 ^ (Z.of_nat k + Z.log2 poly))
    by (split; [assumption | apply below_pow2; lia]).
  assert (Hfb : 0 <= b < 2 ^ (Z.of_nat k + Z.log2 poly))
    by (split; [assumption | apply below_pow2; lia]).
  assert (Hfab : 0 <= Z.lxor a b < 2 ^ (Z.of_nat k + Z.log2 poly))
    by (apply lxor_range; [lia | assumption ..]).
  rewrite !(nndivide_reduce poly Hp k) by assumption.
  apply reduce_lxor; assumption.
Qed.

Lemma bit_length_pos (n : Z) : 0 < n -> bit_length n = Z.log2 n + 1.
Proof.
  intros Hn. unfold bit_length.
  destruct (Z.eqb_spec n 0); [lia |]. rewrite Z.abs_eq by lia. reflexivity.
Qed.

(** ** Bit-strings and their integer values *)

Lemma digits_char (w : nat) (n : Z) :
  digits (S w) n = String (bit_char (Z.testbit n (Z.of_nat w))) (digits w n).
Proof. reflexivity. Qed.

Lemma length_digits (w : nat) (n : Z) : String.length (digits w n) = w.
Proof. induction w as [| w IH]; [reflexivity |]. cbn. rewrite IH. reflexivity. Qed.

Lemma digits_ext (w : nat) (n m : Z) :
  (forall i, 0 <= i < Z.of_nat w -> Z.testbit n i = Z.testbit m i) ->
  digits w n = digits w m.
Proof.
  induction w as [| w IH]; intros Hbits; [reflexivity |].
  cbn [digits]. rewrite (Hbits (Z.of_nat w)) by lia.
  f_equal. apply IH. intros i Hi. apply Hbits. lia.
Qed.

Lemma bit_of_ascii_char (c : ascii) (x : Z) :
  bit_of_ascii c = Some x ->
  0 <= x <= 1 /\ c = bit_char (Z.odd x).
Proof.
  unfold bit_of_ascii.
  destruct (Ascii.eqb_spec c "0") as [-> | _].
  - intros [= <-]. split; [lia | reflexivity].
  - destruct (Ascii.eqb_spec c "1") as [-> | _]; [| discriminate].
    intros [= <-]. split; [lia | reflexivity].
Qed.

Lemma testbit_split (hi lo e : Z) :
  0 <= e -> 0 <= lo < 2 ^ e ->
  Z.testbit (hi * 2 ^ e + lo) e = Z.odd hi /\
  forall i, 0 <= i < e -> Z.testbit (hi * 2 ^ e + lo) i = Z.testbit lo i.
Proof.
  intros He Hlo. split.
  - rewrite <- (Z.add_0_l e) at 2. rewrite <- Z.div_pow2_bits by lia.
    rewrite Z.bit0_odd. f_equal.
    symmetry. apply Z.div_unique with (r := lo); lia.
  - intros i Hi.
    rewrite <- (Z.mod_pow2_bits_low _ e i) by lia.
    f_equal. rewrite Z.add_comm, Z.mod_add by lia.
    apply Z.mod_small. assumption.
Qed.

(** Reading a bit-string: the value is the accumulator shifted past the
    string plus the value of the string's own digits. *)
Lemma int2_from_digits (s : string) :
  forall acc v,
    int2_from acc s = Some v ->
    exists lo,
      v = acc * 2 ^ len s + lo /\ 0 <= lo < 2 ^ len s /\
      digits (String.length s) lo = s.
Proof.
  induction s as [| c s IH]; intros acc v Hv.
  - injection Hv as <-. exists 0. unfold len. cbn. split; [lia | split; [lia | reflexivity]].
  - cbn [int2_from] in Hv.
    destruct (bit_of_ascii c) as [x |] eqn:Hc; [| discriminate].
    apply bit_of_ascii_char in Hc as [Hx ->].
    destruct (IH _ _ Hv) as (lo & -> & Hlo & Hdig).
    unfold len in *. cbn [String.length].
    set (e := Z.of_nat (String.length s)) in *.
    assert (He : 0 <= e) by lia.
    replace (Z.of_nat (S (String.length s))) with (e + 1) by lia.
    rewrite Z.pow_add_r, Z.pow_1_r by lia.
    exists (x * 2 ^ e + lo). split; [lia |]. split; [nia |].
    rewrite digits_char. fold e.
    destruct (testbit_split x lo e He Hlo) as [Htop Hlow].
    rewrite Htop. f_equal.
    rewrite <- Hdig at 2. apply digits_ext. intros i Hi. apply Hlow. lia.
Qed.

Lemma int2_digits (s : string) (v : Z) :
  int2 s = Ok v ->
  0 <= v < 2 ^ len s /\ digits (String.length s) v = s /\ 0 < len s.
Proof.
  unfold int2. destruct s as [| c s]; [discriminate |].
  destruct (int2_from 0 (String c s)) as [n |] eqn:Hn; [| discriminate].
  intros [= <-].
  destruct (int2_from_digits _ _ _ Hn) as (lo & -> & Hlo & Hdig).
  rewrite Z.mul_0_l, Z.add_0_l. unfold len. cbn [String.length]. 
  split; [assumption | split; [assumption | lia]].
Qed.

Lemma int2_from_of_digits (w : nat) (n : Z) :
  forall acc, int2_from acc (digits w n) = Some (acc * 2 ^ Z.of_nat w + n mod 2 ^ Z.of_nat w).
Proof.
  induction w as [| w IH]; intros acc.
  - cbn. rewrite Z.mod_1_r. f_equal. lia.
  - rewrite digits_char. cbn [int2_from].
    assert (Hbit : bit_of_ascii (bit_char (Z.testbit n (Z.of_nat w)))
                   = Some (Z.b2z (Z.testbit n (Z.of_nat w))))
      by (destruct (Z.testbit n (Z.of_nat w)); reflexivity).
    rewrite Hbit, IH. f_equal.
    replace (Z.of_nat (S w)) with (Z.of_nat w + 1) by lia.
    rewrite Z.pow_add_r, Z.pow_1_r by lia.
    rewrite Z.rem_mul_r by (try apply Z.pow_nonzero; lia).
    rewrite Z.testbit_spec' by lia. lia.
Qed.

(** Writing then reading returns the number. *)
Lemma int2_of_digits (w : nat) (n : Z) :
  (0 < w)%nat -> 0 <= n < 2 ^ Z.of_nat w -> int2 (digits w n) = Ok n.
Proof.
  intros Hw Hn. unfold int2.
  destruct w as [| w]; [lia |].
  rewrite digits_char. rewrite <- digits_char.
  rewrite int2_from_of_digits, Z.mul_0_l, Z.add_0_l, Z.mod_small by assumption.
  reflexivity.
Qed.

Lemma append_empty_l (s : string) : ("" ++ s)%string = s.
Proof. reflexivity. Qed.

Lemma digits_zero (w : nat) : digits w 0 = zeros w.
Proof.
  induction w as [| w IH]; [reflexivity |].
  rewrite digits_char, Z.bits_0, IH. reflexivity.
Qed.

Lemma zeros_app (k w : nat) : (zeros k ++ zeros w)%string = zeros (k + w).
Proof.
  induction k as [| k IH]; [reflexivity |].
  cbn [zeros Nat.add]. rewrite <- IH. reflexivity.
Qed.

Lemma digits_pad (k w : nat) (n : Z) :
  0 <= n < 2 ^ Z.of_nat w ->
  digits (k + w) n = (zeros k ++ digits w n)%string.
Proof.
  intros [Hn Hlt]. induction k as [| k IH]; [reflexivity |].
  cbn [Nat.add]. rewrite digits_char, IH.
  rewrite (proj1 (lt_pow2_bits n (Z.of_nat w) ltac:(lia) Hn) Hlt) by lia.
  reflexivity.
Qed.

(** Formatting the value of a bit-string to the string's own width
    gives the string back. *)
Lemma format_int2 (s : string) (v : Z) :
  int2 s = Ok v -> format_0b (len s) v = s.
Proof.
  intros Hs. apply int2_digits in Hs as ([Hv Hlt] & Hdig & Hlen).
  unfold format_0b, bin.
  replace (v <? 0) with false by (symmetry; apply Z.ltb_ge; assumption).
  rewrite append_empty_l. unfold len in *.
  destruct (Z.eqb_spec v 0) as [-> | Hne].
  - change "0"%string with (zeros 1). rewrite zeros_app.
    rewrite <- Hdig at 2. rewrite digits_zero. f_equal.
    cbn [String.length zeros]. lia.
  - rewrite bit_length_pos, Z.abs_eq by lia.
    rewrite length_digits.
    assert (Z.log2 v < Z.of_nat (String.length s)) by (apply Z.log2_lt_pow2; lia).
    pose proof (Z.log2_nonneg v).
    rewrite <- digits_pad.
    + rewrite <- Hdig at 2. f_equal. cbn [String.length]. lia.
    + split; [assumption |]. apply below_pow2; lia.
Qed.

Lemma flip_char_bit (b : bool) : flip_char (bit_char b) = bit_char (negb b).
Proof. destruct b; reflexivity. Qed.

Lemma length_flip_bit (i : nat) (s : string) :
  String.length (flip_bit i s) = String.length s.
Proof.
  induction s as [| c s IH]; [reflexivity |].
  cbn [flip_bit]. destruct (Nat.eqb _ _); cbn; [| rewrite IH]; reflexivity.
Qed.

Lemma flip_bit_digits (w i : nat) (n : Z) :
  (i < w)%nat ->
  flip_bit i (digits w n) = digits w (Z.lxor n (2 ^ Z.of_nat i)).
Proof.
  induction w as [| w IH]; intros Hi; [lia |].
  rewrite !digits_char. cbn [flip_bit]. rewrite length_digits.
  rewrite Z.lxor_spec, Z.pow2_bits_eqb by lia.
  destruct (Nat.eqb_spec w i) as [-> | Hne].
  - rewrite flip_char_bit, Z.eqb_refl, xorb_true_r. f_equal.
    apply digits_ext. intros j Hj.
    rewrite Z.lxor_spec, Z.pow2_bits_false by lia.
    rewrite xorb_false_r. reflexivity.
  - replace (Z.of_nat i =? Z.of_nat w) with false by (symmetry; apply Z.eqb_neq; lia).
    rewrite xorb_false_r, IH by lia. reflexivity.
Qed.

Lemma lxor_pow2_range (n w i : Z) :
  0 <= n < 2 ^ w -> 0 <= i < w -> 0 <= Z.lxor n (2 ^ i) < 2 ^ w.
Proof.
  intros Hn Hi. apply lxor_range; [lia | assumption |].
  split; [apply Z.pow_nonneg; lia | apply Z.pow_lt_mono_r; lia].
Qed.

(** Flipping bit [i] of a bit-string xors its value with [2^i]. *)
Lemma int2_flip_bit (s : string) (v : Z) (i : nat) :
  int2 s = Ok v -> Z.of_nat i < len s ->
  int2 (flip_bit i s) = Ok (Z.lxor v (2 ^ Z.of_nat i)).
Proof.
  intros Hs Hi. apply int2_digits in Hs as (Hv & Hdig & Hlen).
  unfold len in *. rewrite <- Hdig, flip_bit_digits by lia.
  apply int2_of_digits; [lia |]. apply lxor_pow2_range; lia.
Qed.

(** ** Ranges and searches *)

Lemma in_range2 (lo hi x : Z) : In x (range2 lo hi) <-> lo <= x < hi.
Proof.
  unfold range2. rewrite in_map_iff. split.
  - intros (k & <- & Hk). apply in_seq in Hk. lia.
  - intros Hx. exists (Z.to_nat (x - lo)). split; [lia |]. apply in_seq. lia.
Qed.

Lemma in_range (n x : Z) : In x (range n) <-> 0 <= x < n.
Proof. apply in_range2. Qed.

Lemma map_seq_from {A} (f : nat -> A) (len s : nat) :
  map f (seq s len) = map (fun k => f (s + k)%nat) (seq 0 len).
Proof.
  revert s. induction len as [| len IH]; intros s; [reflexivity |].
  cbn [seq map]. f_equal; [f_equal; lia |].
  rewrite IH, <- seq_shift, map_map.
  apply map_ext. intros k. f_equal. lia.
Qed.

Lemma range_split (n i : Z) :
  0 <= i < n -> range n = (range i ++ i :: range2 (i + 1) n)%list.
Proof.
  intros Hi. unfold range, range2.
  replace (Z.to_nat (n - 0)) with (Z.to_nat (i - 0) + S (Z.to_nat (n - (i + 1))))%nat by lia.
  rewrite seq_app, map_app. f_equal. cbn [seq map]. f_equal; [lia |].
  rewrite map_seq_from. apply map_ext. intros k. lia.
Qed.

Lemma forallb_range (P : Z -> bool) (n : Z) :
  forallb P (range n) = true -> forall i, 0 <= i < n -> P i = true.
Proof.
  intros H i Hi. rewrite forallb_forall in H. apply H, in_range, Hi.
Qed.

Lemma first_zero_none (poly : Z) (cands : list Z) :
  (forall m, In m cands -> nndivide poly m <> 0) ->
  first_zero poly cands = None.
Proof.
  induction cands as [| m cands IH]; intros H; [reflexivity |].
  cbn [first_zero].
  destruct (Z.eqb_spec (nndivide poly m) 0) as [E | _].
  - exfalso. apply (H m); [left; reflexivity | exact E].
  - apply IH. intros m' Hm'. apply H. right. exact Hm'.
Qed.

Lemma first_zero_at (poly : Z) (before after : list Z) (m : Z) :
  (forall m', In m' before -> nndivide poly m' <> 0) ->
  nndivide poly m = 0 ->
  first_zero poly (before ++ m :: after)%list = Some m.
Proof.
  induction before as [| m' before IH]; intros Hb Hm.
  - cbn. rewrite Hm. reflexivity.
  - cbn [app first_zero].
    destruct (Z.eqb_spec (nndivide poly m') 0) as [E | _].
    + exfalso. apply (Hb m'); [left; reflexivity | exact E].
    + apply IH; [| exact Hm]. intros x Hx. apply Hb. right. exact Hx.
Qed.

Lemma in_flips1 (bnum blen m : Z) :
  In m (flips1 bnum blen) ->
  exists b1, 0 <= b1 < blen /\ m = Z.lxor bnum (Z.shiftl 1 b1).
Proof.
  unfold flips1. rewrite in_map_iff. intros (b1 & <- & Hb1).
  apply in_range in Hb1. exists b1. split; [assumption | reflexivity].
Qed.

Lemma in_flips2 (bnum blen m : Z) :
  In m (flips2 bnum blen) ->
  exists b1 b2, 0 <= b1 < b2 /\ b2 < blen /\
    m = Z.lxor (Z.lxor bnum (Z.shiftl 1 b1)) (Z.shiftl 1 b2).
Proof.
  unfold flips2. rewrite in_flat_map. intros (b1 & Hb1 & Hm).
  apply in_range in Hb1. apply in_map_iff in Hm as (b2 & <- & Hb2).
  apply in_range2 in Hb2. exists b1, b2. repeat split; lia.
Qed.

Lemma distinct_syndromes_spec (poly bits : Z) :
  distinct_syndromes poly bits = true ->
  forall i j, 0 <= i < bits -> 0 <= j < bits ->
    (syndrome1 poly i <> 0) /\ (i <> j -> syndrome1 poly i <> syndrome1 poly j).
Proof.
  intros H.
  assert (Hlt : forall i j, 0 <= j < i -> i < bits ->
            syndrome1 poly j <> syndrome1 poly i).
  { intros i j Hj Hi.
    pose proof (forallb_range _ _ H i ltac:(lia)) as Hi'.
    apply andb_prop in Hi' as [_ Hi'].
    pose proof (forallb_range _ _ Hi' j Hj) as E.
    apply negb_true_iff, Z.eqb_neq in E. exact E. }
  intros i j Hi Hj. split.
  - pose proof (forallb_range _ _ H i Hi) as Hi'.
    apply andb_prop in Hi' as [Hi' _].
    apply negb_true_iff, Z.eqb_neq in Hi'. exact Hi'.
  - intros Hne.
    destruct (Z_lt_le_dec i j) as [Hij | Hij].
    + apply Hlt; lia.
    + intros E. apply (Hlt i j); [lia | lia | symmetry; exact E].
Qed.

(** ** [repair] *)

Lemma ndivide_ok (poly : Z) (b : string) (r : Z) :
  ndivide poly b = Ok r -> exists n, int2 b = Ok n /\ nndivide poly n = r.
Proof.
  unfold ndivide. destruct (int2 b) as [n | e]; cbn; [| discriminate].
  intros [= <-]. exists n. split; reflexivity.
Qed.

(** C8: a word whose syndrome is zero is returned unchanged with an
    error count of 0. *)
Theorem repair_zero_syndrome (poly : Z) (c : string) :
  ndivide poly c = Ok 0 -> repair poly c = Ok (0, c).
Proof.
  intros H. apply ndivide_ok in H as (n & Hn & Hr).
  unfold repair. rewrite Hn. cbn. rewrite Hr. reflexivity.
Qed.

(** The concrete scenario of C8: [repair(29, "0000000")]. *)
Lemma repair_zero_syndrome_witness :
  ndivide 29 "0000000" = Ok 0 /\ repair 29 "0000000" = Ok (0, "0000000").
Proof.
  split; [reflexivity |]. apply (repair_zero_syndrome 29 "0000000"). reflexivity.
Defined.

(** C5: when the syndrome is non-zero and neither a single flip nor a
    pair of flips zeroes it, [repair] answers the sentinel -1 and the
    word as it was given. *)
Theorem repair_uncorrectable (poly : Z) (b : string) (bnum : Z) :
  int2 b = Ok bnum ->
  nndivide poly bnum <> 0 ->
  (forall b1, 0 <= b1 < len b ->
     nndivide poly (Z.lxor bnum (Z.shiftl 1 b1)) <> 0) ->
  (forall b1 b2, 0 <= b1 < b2 -> b2 < len b ->
     nndivide poly (Z.lxor (Z.lxor bnum (Z.shiftl 1 b1)) (Z.shiftl 1 b2)) <> 0) ->
  repair poly b = Ok (-1, b).
Proof.
  intros Hb Hr H1 H2. unfold repair. rewrite Hb. cbn.
  destruct (Z.eqb_spec (nndivide poly bnum) 0) as [E | _]; [contradiction |].
  rewrite first_zero_none.
  - rewrite first_zero_none; [reflexivity |].
    intros m Hm. apply in_flips2 in Hm as (b1 & b2 & H12 & Hlt & ->).
    apply H2; assumption.
  - intros m Hm. apply in_flips1 in Hm as (b1 & Hb1 & ->).
    apply H1; assumption.
Qed.

(** Single-bit errors in a code whose single-bit syndromes are
    distinct: the first search loop stops exactly at the flipped
    position and restores the codeword. *)
Lemma repair_single_flip_distinct (poly bits : Z) (c : string) (i : Z) :
  0 < poly ->
  distinct_syndromes poly bits = true ->
  len c = bits ->
  ndivide poly c = Ok 0 ->
  0 <= i < bits ->
  repair poly (flip_bit (Z.to_nat i) c) = Ok (1, c).
Proof.
  intros Hp Hd Hlen Hc Hi.
  apply ndivide_ok in Hc as (n & Hn & Hr).
  pose proof (int2_digits _ _ Hn) as (Hrange & _ & _).
  pose proof (int2_flip_bit c n (Z.to_nat i) Hn ltac:(lia)) as Hflip.
  rewrite Z2Nat.id in Hflip by lia.
  assert (Hsyn : forall j, 0 <= j ->
            nndivide poly (Z.lxor (Z.lxor n (2 ^ i)) (Z.shiftl 1 j))
            = Z.lxor (syndrome1 poly i) (syndrome1 poly j)).
  { intros j Hj. unfold syndrome1. rewrite !Z.shiftl_1_l.
    assert (0 <= 2 ^ i) by (apply Z.pow_nonneg; lia).
    assert (0 <= 2 ^ j) by (apply Z.pow_nonneg; lia).
    rewrite !nndivide_lxor, Hr, Z.lxor_0_l; try lia.
    apply Z.lxor_nonneg; lia. }
  unfold repair. rewrite Hflip. cbn [mbind result_bind Py.bind].
  assert (Hrem : nndivide poly (Z.lxor n (2 ^ i)) = syndrome1 poly i).
  { unfold syndrome1. rewrite Z.shiftl_1_l.
    rewrite nndivide_lxor, Hr, Z.lxor_0_l; [reflexivity | lia ..|].
    apply Z.pow_nonneg; lia. }
  rewrite Hrem.
  destruct (distinct_syndromes_spec _ _ Hd i i Hi Hi) as [Hnz _].
  destruct (Z.eqb_spec (syndrome1 poly i) 0) as [E | _]; [contradiction |].
  assert (Hlen' : len (flip_bit (Z.to_nat i) c) = bits)
    by (unfold len in *; rewrite length_flip_bit; exact Hlen).
  rewrite Hlen'. unfold flips1.
  rewrite (range_split bits i Hi), map_app. cbn [map].
  rewrite first_zero_at.
  - rewrite Z.shiftl_1_l, Z.lxor_assoc, Z.lxor_nilpotent, Z.lxor_0_r.
    rewrite <- Hlen, (format_int2 c n Hn). reflexivity.
  - intros m Hm. apply in_map_iff in Hm as (j & <- & Hj).
    apply in_range in Hj. rewrite Hsyn by lia.
    intros E. apply Z.lxor_eq in E.
    destruct (distinct_syndromes_spec _ _ Hd i j Hi ltac:(lia)) as [_ Hne].
    apply Hne; [lia | exact E].
  - rewrite Hsyn by lia. apply Z.lxor_nilpotent.
Qed.

(** C4: in each of the six configurations, flipping any one bit of a
    codeword is repaired to the codeword with an error count of 1. *)
Theorem repair_single_flip (poly bits synbits errors : Z) (c : string) (i : Z) :
  In (poly, bits, synbits, errors) configurations ->
  len c = bits ->
  ndivide poly c = Ok 0 ->
  0 <= i < bits ->
  repair poly (flip_bit (Z.to_nat i) c) = Ok (1, c).
Proof.
  intros Hcfg. unfold configurations in Hcfg. cbn [In] in Hcfg.
  repeat (destruct Hcfg as [Hcfg | Hcfg];
          [injection Hcfg as <- <- <- <-;
           apply repair_single_flip_distinct; [lia | vm_compute; reflexivity] |]).
  contradiction.
Qed.

Lemma repair_single_flip_witness :
  repair 29 (flip_bit 3 "0000000") = Ok (1, "0000000").
Proof.
  apply (repair_single_flip 29 7 4 1 "0000000" 3).
  - left. reflexivity.
  - reflexivity.
  - reflexivity.
  - lia.
Defined.

Lemma forallb_range2 (P : Z -> bool) (lo hi : Z) :
  forallb P (range2 lo hi) = true -> forall i, lo <= i < hi -> P i = true.
Proof.
  intros H i Hi. rewrite forallb_forall in H. apply H, in_range2, Hi.
Qed.

Lemma repair_uncorrectable_witness :
  repair 1897 "0000000000000000000000000000111"
  = Ok (-1, "0000000000000000000000000000111").
Proof.
  apply (repair_uncorrectable 1897 "0000000000000000000000000000111" 7).
  - reflexivity.
  - vm_compute. discriminate.
  - intros b1 Hb1. apply Z.eqb_neq, negb_true_iff.
    revert b1 Hb1.
    apply (forallb_range
             (fun b1 => negb (nndivide 1897 (Z.lxor 7 (Z.shiftl 1 b1)) =? 0))).
    vm_compute. reflexivity.
  - intros b1 b2 H12 Hlt. apply Z.eqb_neq, negb_true_iff.
    assert (Hb1 : 0 <= b1 < 31) by (change (len _) with 31 in Hlt; lia).
    assert (Hb2 : b1 + 1 <= b2 < 31) by (change (len _) with 31 in Hlt; lia).
    revert b2 Hb2 H12 Hlt. revert b1 Hb1.
    refine (fun b1 Hb1 b2 Hb2 _ _ =>
      forallb_range2
        (fun b2 => negb (nndivide 1897
           (Z.lxor (Z.lxor 7 (Z.shiftl 1 b1)) (Z.shiftl 1 b2)) =? 0))
        (b1 + 1) 31
        (forallb_range
           (fun b1 => forallb (fun b2 => negb (nndivide 1897
              (Z.lxor (Z.lxor 7 (Z.shiftl 1 b1)) (Z.shiftl 1 b2)) =? 0))
              (range2 (b1 + 1) 31)) 31 _ b1 Hb1) b2 Hb2).
    vm_compute. reflexivity.
Defined.

(** ** [ndivide] and leading zeros *)

Lemma int2_from_zeros (k : nat) (s : string) :
  int2_from 0 (zeros k ++ s)%string = int2_from 0 s.
Proof. induction k as [| k IH]; [reflexivity |]. cbn. exact IH. Qed.

Lemma int2_leading_zeros (k : nat) (s : string) :
  s <> EmptyString -> int2 (zeros k ++ s)%string = int2 s.
Proof.
  intros Hs. unfold int2.
  destruct s as [| c s]; [contradiction |].
  rewrite <- (int2_from_zeros k (String c s)).
  destruct k; reflexivity.
Qed.

(** C9: the syndrome is a function of the integer value of the
    dividend alone: leading zeros of the bit-string do not change it,
    and two bit-strings of the same value have the same syndrome. *)
Theorem ndivide_leading_zeros (p : Z) (bits : string) (n : Z) :
  2 <= p -> int2 bits = Ok n ->
  (forall k, ndivide p (zeros k ++ bits)%string = ndivide p bits) /\
  ndivide p bits = Ok (nndivide p n) /\
  (forall bits', int2 bits' = Ok n -> ndivide p bits' = ndivide p bits).
Proof.
  intros _ Hn. split; [| split].
  - intros k. unfold ndivide. rewrite int2_leading_zeros; [reflexivity |].
    intros ->. discriminate.
  - unfold ndivide. rewrite Hn. reflexivity.
  - intros bits' Hn'. unfold ndivide. rewrite Hn, Hn'. reflexivity.
Qed.

Lemma ndivide_leading_zeros_witness :
  (forall k, ndivide 29 (zeros k ++ "1000")%string = ndivide 29 "1000") /\
  ndivide 29 "1000" = Ok (nndivide 29 8) /\
  (forall bits', int2 bits' = Ok 8 -> ndivide 29 bits' = ndivide 29 "1000").
Proof.
  apply (ndivide_leading_zeros 29 "1000" 8); [lia | reflexivity].
Defined.

(** ** The syndrome tables *)

Lemma entry_eqb_eq (a b : entry) : entry_eqb a b = true -> a = b.
Proof.
  destruct a as [a1 a2], b as [b1 b2]. unfold entry_eqb. cbn.
  intros H. apply andb_prop in H as [H1 H2].
  apply Z.eqb_eq in H1, H2. congruence.
Qed.

Lemma lookup_first_spec (poly : Z) (pats : list entry) (r : Z) :
  lookup_first (syndrome_list poly pats) r = first_pattern poly pats r.
Proof.
  unfold first_pattern. induction pats as [| e pats IH]; [reflexivity |].
  cbn. destruct (nndivide poly (snd e) =? r); [reflexivity | exact IH].
Qed.

Lemma first_wins_from_spec (poly : Z) (pats : list entry) (t : table) :
  forall r0,
    first_wins_from (syndrome_list poly pats) r0 t = true ->
    forall (k : nat) (e : entry),
      t !! k = Some (Some e) ->
      first_pattern poly pats (r0 + Z.of_nat k) = Some e.
Proof.
  induction t as [| slot t IH]; intros r0 H k e Hk; [discriminate |].
  cbn [first_wins_from] in H. apply andb_prop in H as [Hslot Hrest].
  destruct k as [| k].
  - injection Hk as ->. cbn [holds_first] in Hslot.
    rewrite Z.add_0_r, <- lookup_first_spec.
    destruct (lookup_first _ r0) as [e' |]; [| discriminate].
    apply entry_eqb_eq in Hslot. congruence.
  - replace (r0 + Z.of_nat (S k)) with (r0 + 1 + Z.of_nat k) by lia.
    apply (IH _ Hrest). exact Hk.
Qed.

Lemma extends_b_spec (t t' : table) : extends_b t t' = true -> extends t t'.
Proof.
  revert t'. induction t as [| a t IH]; intros t' H r e Hr; [discriminate |].
  destruct t' as [| b t']; [discriminate |].
  cbn [extends_b] in H. apply andb_prop in H as [Hk Hrest].
  destruct r as [| r].
  - injection Hr as ->. cbn [kept] in Hk.
    destruct b as [e' |]; [| discriminate].
    apply entry_eqb_eq in Hk. subst e'. reflexivity.
  - apply (IH _ Hrest). exact Hr.
Qed.

Lemma extends_trans (t1 t2 t3 : table) :
  extends t1 t2 -> extends t2 t3 -> extends t1 t3.
Proof. intros H12 H23 r e Hr. apply H23, H12, Hr. Qed.

Lemma monotone_run_extends (poly : Z) (ws : list write) :
  forall t tf,
    monotone_run poly ws t = true ->
    for_each (do_write poly) ws t = Ok tf ->
    extends t tf.
Proof.
  induction ws as [| w ws IH]; intros t tf Hm Hr.
  - injection Hr as <-. intros r e Hre. exact Hre.
  - cbn [for_each monotone_run] in *.
    destruct (do_write poly t w) as [t' | ex]; [| discriminate].
    apply andb_prop in Hm as [He Hm]. cbn [Py.bind] in Hr.
    eapply extends_trans; [apply extends_b_spec, He | eapply IH; eassumption].
Qed.

(** Nothing that has been written is ever replaced: the table after any
    number of assignments is contained in the final one. *)
Lemma monotone_run_prefix (poly : Z) (ws : list write) :
  forall t tf,
    monotone_run poly ws t = true ->
    for_each (do_write poly) ws t = Ok tf ->
    forall (k : nat) (tk : table),
      for_each (do_write poly) (take k ws) t = Ok tk ->
      extends tk tf.
Proof.
  induction ws as [| w ws IH]; intros t tf Hm Hr k tk Hk.
  - rewrite take_nil in Hk. injection Hk as <-. injection Hr as <-.
    intros r e Hre. exact Hre.
  - destruct k as [| k].
    + injection Hk as <-. eapply monotone_run_extends; eassumption.
    + cbn [take for_each monotone_run] in *.
      destruct (do_write poly t w) as [t' | ex]; [| discriminate].
      apply andb_prop in Hm as [_ Hm]. cbn [Py.bind] in *.
      eapply IH; eassumption.
Qed.

Lemma made_ok (poly bits synbits errors : Z) (t : table) :
  made poly bits synbits errors = Some t ->
  mk_table poly bits synbits errors = Ok t.
Proof.
  unfold made. destruct (mk_table _ _ _ _); [congruence | discriminate].
Qed.

Lemma mk_syn_ok (poly bits synbits errors : Z) (s : gmap Z table) (t : table) :
  1 <= errors <= 3 -> 0 <= synbits ->
  mk_table poly bits synbits errors = Ok t ->
  mk_syn poly bits synbits errors s = Ok (<[poly := t]> s).
Proof.
  intros He Hs Ht. unfold mk_syn.
  replace ((errors =? 1) || (errors =? 2) || (errors =? 3)) with true
    by (symmetry; repeat (apply orb_true_iff; rewrite ?Z.eqb_eq); lia).
  replace (synbits <? 0) with false by (symmetry; apply Z.ltb_ge; lia).
  rewrite Ht. reflexivity.
Qed.

(** Everything that is evaluated, once for each configuration. *)
Lemma configurations_checked (poly bits synbits errors : Z) :
  In (poly, bits, synbits, errors) configurations ->
  0 < poly /\ synbits = Z.log2 poly /\ 1 <= errors <= 3 /\
  in_bounds_b synbits (mk_table poly bits synbits errors) = true /\
  first_wins_b poly (enumeration bits) (mk_table poly bits synbits errors) = true /\
  monotone_run poly (writes bits errors) (blank synbits) = true.
Proof.
  intros Hcfg. unfold configurations in Hcfg. cbn [In] in Hcfg.
  repeat (destruct Hcfg as [Hcfg | Hcfg];
          [injection Hcfg as <- <- <- <-;
           split; [lia | split; [reflexivity | split; [lia |]]];
           (split; [| split]); vm_compute; reflexivity |]).
  contradiction.
Qed.

Lemma mk_table_ok (poly bits synbits errors : Z) :
  In (poly, bits, synbits, errors) configurations ->
  exists t : table,
    mk_table poly bits synbits errors = Ok t /\
    Z.of_nat (length t) = 2 ^ synbits.
Proof.
  intros Hcfg.
  destruct (configurations_checked _ _ _ _ Hcfg) as (_ & _ & _ & Hb & _).
  unfold in_bounds_b in Hb.
  destruct (mk_table poly bits synbits errors) as [t | ex]; [| discriminate].
  exists t. split; [reflexivity | apply Z.eqb_eq, Hb].
Qed.

(** A run of [mk_syn] calls over configurations with pairwise distinct
    polynomials leaves under each polynomial the table its own call
    made, and touches no other key. *)
Lemma for_each_init_step (cfgs : list (Z * Z * Z * Z)) :
  forall s : gmap Z table,
    (forall poly bits synbits errors,
        In (poly, bits, synbits, errors) cfgs ->
        1 <= errors <= 3 /\ 0 <= synbits /\
        exists t, mk_table poly bits synbits errors = Ok t) ->
    List.NoDup (map (fun cfg => fst (fst (fst cfg))) cfgs) ->
    exists s' : gmap Z table,
      for_each init_step cfgs s = Ok s' /\
      (forall poly bits synbits errors,
          In (poly, bits, synbits, errors) cfgs ->
          s' !! poly = made poly bits synbits errors) /\
      (forall p, ~ In p (map (fun cfg => fst (fst (fst cfg))) cfgs) ->
          s' !! p = s !! p).
Proof.
  induction cfgs as [| [[[poly bits] synbits] errors] cfgs IH];
    intros s Hok Hnd.
  - exists s. split; [reflexivity |]. split; [intros ? ? ? ? [] | reflexivity].
  - cbn [map fst] in Hnd. apply List.NoDup_cons_iff in Hnd as [Hfresh Hnd].
    destruct (Hok poly bits synbits errors (or_introl eq_refl))
      as (He & Hs & t & Ht).
    destruct (IH (<[poly := t]> s)) as (s' & Hrun & Hin & Hout);
      [intros; apply Hok; right; assumption | exact Hnd |].
    exists s'. split; [| split].
    + cbn [for_each init_step].
      rewrite (mk_syn_ok poly bits synbits errors s t He Hs Ht). exact Hrun.
    + intros p b sb e [Heq | Hrest].
      * injection Heq as <- <- <- <-.
        rewrite (Hout poly Hfresh), lookup_insert_eq.
        unfold made. rewrite Ht. reflexivity.
      * apply Hin, Hrest.
    + intros p Hp. cbn [map fst In] in Hp.
      rewrite Hout by tauto. apply lookup_insert_ne. tauto.
Qed.

Lemma configurations_nodup :
  List.NoDup (map (fun cfg => fst (fst (fst cfg))) configurations).
Proof.
  unfold configurations. cbn [map fst].
  repeat (apply List.NoDup_cons; [cbn [In]; lia |]). apply List.NoDup_nil.
Qed.

(** [init] runs the six calls of [mk_syn] one after the other on the
    dictionary; no two of them share a key. *)
Lemma installed_made (poly bits synbits errors : Z) :
  In (poly, bits, synbits, errors) configurations ->
  installed poly = made poly bits synbits errors.
Proof.
  intros Hcfg.
  destruct (for_each_init_step configurations ∅) as (s' & Hrun & Hin & _).
  - intros p b sb e Hc.
    destruct (configurations_checked _ _ _ _ Hc) as (Hp & Hs & He & _).
    destruct (mk_table_ok _ _ _ _ Hc) as (t & Ht & _).
    pose proof (Z.log2_nonneg p).
    split; [exact He | split; [lia | exists t; exact Ht]].
  - exact configurations_nodup.
  - unfold installed, init. rewrite Hrun. apply Hin, Hcfg.
Qed.

(** C6: in each of the six tables [init] installs, an occupied slot
    holds the first pattern, in enumeration order (single bits in
    ascending position, then pairs in ascending order), that has the
    slot's syndrome; and no assignment made while the table is built
    replaces an entry written before it. *)
Theorem syndrome_table_first_wins (poly bits synbits errors : Z) :
  In (poly, bits, synbits, errors) configurations ->
  exists t : table,
    installed poly = Some t /\
    mk_table poly bits synbits errors = Ok t /\
    (forall (r : nat) (e : entry),
        t !! r = Some (Some e) ->
        first_pattern poly (enumeration bits) (Z.of_nat r) = Some e) /\
    (forall (k : nat) (tk : table),
        for_each (do_write poly) (take k (writes bits errors)) (blank synbits)
        = Ok tk ->
        extends tk t).
Proof.
  intros Hcfg.
  pose proof (installed_made _ _ _ _ Hcfg) as Hi.
  destruct (configurations_checked _ _ _ _ Hcfg) as (_ & _ & _ & _ & Hf & Hm).
  unfold made in Hi.
  destruct (mk_table poly bits synbits errors) as [t | ex] eqn:Ht;
    [| discriminate].
  exists t. split; [exact Hi | split; [reflexivity | split]].
  - intros r e Hr. apply (first_wins_from_spec _ _ _ 0 Hf r e Hr).
  - intros k tk Hk. eapply monotone_run_prefix; eassumption.
Qed.

Lemma syndrome_table_first_wins_witness :
  exists t : table,
    installed 465 = Some t /\
    mk_table 465 14 8 2 = Ok t /\
    (forall (r : nat) (e : entry),
        t !! r = Some (Some e) ->
        first_pattern 465 (enumeration 14) (Z.of_nat r) = Some e) /\
    (forall (k : nat) (tk : table),
        for_each (do_write 465) (take k (writes 14 2)) (blank 8) = Ok tk ->
        extends tk t).
Proof.
  apply (syndrome_table_first_wins 465 14 8 2).
  right. left. reflexivity.
Defined.

Lemma lor_pow2_nonneg (a b : Z) : 0 <= Z.lor (Z.shiftl 1 a) (Z.shiftl 1 b).
Proof. apply Z.lor_nonneg. split; apply Z.shiftl_nonneg; lia. Qed.

(** C10: in each of the six configurations the table has
    [2^(bit_length(poly)-1)] slots, every syndrome of a one- or two-bit
    pattern is below that, and building the table never leaves it. *)
Theorem syndrome_writes_in_bounds (poly bits synbits errors : Z) :
  In (poly, bits, synbits, errors) configurations ->
  2 ^ synbits = 2 ^ (bit_length poly - 1) /\
  (forall n1, 0 <= n1 < bits ->
     0 <= nndivide poly (Z.shiftl 1 n1) < 2 ^ synbits) /\
  (forall n1 n2, 0 <= n1 < n2 -> n2 < bits ->
     0 <= nndivide poly (Z.lor (Z.shiftl 1 n1) (Z.shiftl 1 n2)) < 2 ^ synbits) /\
  exists t : table,
    mk_table poly bits synbits errors = Ok t /\
    Z.of_nat (length t) = 2 ^ synbits.
Proof.
  intros Hcfg.
  destruct (configurations_checked _ _ _ _ Hcfg) as (Hp & Hs & _).
  split; [rewrite bit_length_pos by lia; f_equal; lia |].
  split; [| split].
  - intros n1 Hn1. rewrite Hs. apply nndivide_range; [lia |].
    apply Z.shiftl_nonneg. lia.
  - intros n1 n2 H12 Hlt. rewrite Hs. apply nndivide_range; [lia |].
    apply lor_pow2_nonneg.
  - apply mk_table_ok, Hcfg.
Qed.

Lemma syndrome_writes_in_bounds_witness :
  2 ^ 11 = 2 ^ (bit_length 3545 - 1) /\
  (forall n1, 0 <= n1 < 31 -> 0 <= nndivide 3545 (Z.shiftl 1 n1) < 2 ^ 11) /\
  (forall n1 n2, 0 <= n1 < n2 -> n2 < 31 ->
     0 <= nndivide 3545 (Z.lor (Z.shiftl 1 n1) (Z.shiftl 1 n2)) < 2 ^ 11) /\
  exists t : table,
    mk_table 3545 31 11 2 = Ok t /\ Z.of_nat (length t) = 2 ^ 11.
Proof.
  apply (syndrome_writes_in_bounds 3545 31 11 2).
  do 5 right. left. reflexivity.
Defined.

(** ** bitsparser.py: [checksum_16] *)

Import Bitsparser.

Lemma lxor_pow2_add (x k : Z) :
  0 <= k -> Z.testbit x k = false -> Z.lxor x (2 ^ k) = x + 2 ^ k.
Proof.
  intros Hk Hb. symmetry. apply Z.add_nocarry_lxor.
  apply Z.bits_inj'. intros i Hi.
  rewrite Z.land_spec, Z.bits_0, Z.pow2_bits_eqb by lia.
  destruct (Z.eqb_spec k i) as [<- | _]; [rewrite Hb |]; apply andb_false_r || reflexivity.
Qed.

(** Inverting a bit adds or subtracts its weight. *)
Lemma lxor_pow2_delta (x k : Z) :
  0 <= k ->
  Z.lxor x (2 ^ k) = if Z.testbit x k then x - 2 ^ k else x + 2 ^ k.
Proof.
  intros Hk. destruct (Z.testbit x k) eqn:Hb.
  - assert (Hy : Z.testbit (Z.lxor x (2 ^ k)) k = false)
      by (rewrite Z.lxor_spec, Hb, Z.pow2_bits_true by lia; reflexivity).
    pose proof (lxor_pow2_add _ _ Hk Hy) as E.
    rewrite Z.lxor_assoc, Z.lxor_nilpotent, Z.lxor_0_r in E. lia.
  - apply lxor_pow2_add; assumption.
Qed.

Lemma pair_induction (P : list Z -> Prop) :
  P [] -> (forall a, P [a]) -> (forall a b l, P l -> P (a :: b :: l)) ->
  forall l, P l.
Proof.
  intros H0 H1 H2.
  assert (H : forall l, P l /\ forall a, P (a :: l)).
  { induction l as [| b l [IHl IHal]]; [split; [exact H0 | exact H1] |].
    split; [apply IHal | intros a; apply H2, IHl]. }
  intros l. apply H.
Qed.

Lemma view_uint16_sum (data : list Z) :
  Nat.even (length data) = true ->
  exists ws, view_uint16 data = Ok ws /\ fold_right Z.add 0 ws = word_sum data.
Proof.
  induction data as [| a | a b l IH] using pair_induction; intros Hev.
  - exists []. split; reflexivity.
  - discriminate.
  - destruct (IH Hev) as (ws & Hws & Hsum).
    exists ((a + 256 * b) :: ws). cbn [view_uint16]. rewrite Hws.
    split; [reflexivity |]. cbn [fold_right word_sum]. rewrite Hsum. reflexivity.
Qed.

Lemma view_uint16_odd (data : list Z) :
  Nat.even (length data) = false -> view_uint16 data = Raise ValueError.
Proof.
  induction data as [| a | a b l IH] using pair_induction; intros Hev.
  - discriminate.
  - reflexivity.
  - cbn [view_uint16]. rewrite (IH Hev). reflexivity.
Qed.

Lemma word_sum_alter (f : Z -> Z) (data : list Z) :
  Nat.even (length data) = true ->
  forall (i : nat) (x : Z),
    data !! i = Some x ->
    word_sum (alter f i data) = word_sum data + (f x - x) * byte_weight i.
Proof.
  induction data as [| a | a b l IH] using pair_induction; intros Hev i x Hi.
  - discriminate.
  - discriminate.
  - destruct i as [| [| i]].
    + injection Hi as ->. cbn. lia.
    + injection Hi as ->. cbn. lia.
    + cbn [alter list_alter word_sum].
      change (alter f i l) with (list_alter f i l) in IH.
      rewrite (IH Hev i x Hi).
      unfold byte_weight. cbn [Nat.even]. lia.
Qed.

(** The fold of [checksum_16] separates two sums that differ by one
    bit weight below 16. *)
Lemma fold_separates (s j : Z) (up : bool) :
  0 <= j < 16 ->
  let s' := if up then s + 2 ^ j else s - 2 ^ j in
  let m := s mod 2 ^ 64 in
  let m' := s' mod 2 ^ 64 in
  (m mod 65536 + m / 65536) mod 2 ^ 64 <> (m' mod 65536 + m' / 65536) mod 2 ^ 64.
Proof.
  intros Hj s' m m'.
  assert (Hpow : 1 <= 2 ^ j <= 32768).
  { split; [pose proof (Z.pow_pos_nonneg 2 j); lia |].
    change 32768 with (2 ^ 15). apply Z.pow_le_mono_r; lia. }
  assert (H64 : 2 ^ 64 = 18446744073709551616) by reflexivity.
  assert (Hm : 0 <= m < 2 ^ 64) by (apply Z.mod_pos_bound; lia).
  assert (Hm' : 0 <= m' < 2 ^ 64) by (apply Z.mod_pos_bound; lia).
  assert (Hrel : exists w, m' = m + (s' - s) - w * 2 ^ 64).
  { exists ((s' / 2 ^ 64) - (s / 2 ^ 64)).
    unfold m, m'. rewrite !Z.mod_eq by lia. lia. }
  destruct Hrel as (w & Hrel).
  assert (Hd : s' - s = 2 ^ j \/ s' - s = - 2 ^ j)
    by (unfold s'; destruct up; lia).
  rewrite H64 in *.
  pose proof (Z.div_mod m 65536 ltac:(lia)) as Em.
  pose proof (Z.div_mod m' 65536 ltac:(lia)) as Em'.
  pose proof (Z.mod_pos_bound m 65536 ltac:(lia)) as Bm.
  pose proof (Z.mod_pos_bound m' 65536 ltac:(lia)) as Bm'.
  set (l := m mod 65536) in *. set (h := m / 65536) in *.
  set (l' := m' mod 65536) in *. set (h' := m' / 65536) in *.
  assert (0 <= h < 281474976710656) by lia.
  assert (0 <= h' < 281474976710656) by lia.
  rewrite !Z.mod_small by lia.
  lia.
Qed.

Lemma checksum_16_value (data ws : list Z) :
  view_uint16 data = Ok ws ->
  let m := fold_right Z.add 0 ws mod 2 ^ 64 in
  checksum_16 data
  = Ok (Z.lxor ((m mod 65536 + m / 65536) mod 2 ^ 64) 65535).
Proof.
  intros Hws m. unfold checksum_16. rewrite Hws. cbn [mbind result_bind Py.bind].
  unfold np_sum. fold m.
  change 0xFFFF with (Z.ones 16).
  rewrite Z.land_ones, Z.shiftr_div_pow2 by lia. reflexivity.
Qed.

Lemma uint8_flip (x k : Z) : uint8 x -> 0 <= k < 8 -> uint8 (Z.lxor x (2 ^ k)).
Proof.
  unfold uint8. intros Hx Hk. change 256 with (2 ^ 8).
  apply lxor_pow2_range; [exact Hx | lia].
Qed.

(** C7: [checksum_16] is a function of its input, and on an input of
    an even number of bytes inverting any single bit changes the
    checksum. *)
Theorem checksum_16_single_bit (data : list Z) (i : nat) (k : Z) :
  Forall uint8 data ->
  Nat.even (length data) = true ->
  (i < length data)%nat ->
  0 <= k < 8 ->
  (forall d1 d2, d1 = d2 -> checksum_16 d1 = checksum_16 d2) /\
  Forall uint8 (flip_input i k data) /\
  exists c c',
    checksum_16 data = Ok c /\
    checksum_16 (flip_input i k data) = Ok c' /\
    c <> c'.
Proof.
  intros Hbytes Hev Hi Hk.
  split; [intros d1 d2 ->; reflexivity |].
  destruct (lookup_lt_is_Some_2 data i Hi) as [x Hx].
  split.
  { unfold flip_input. apply Forall_alter; [exact Hbytes |].
    intros y _ Hy. exact (uint8_flip y k Hy Hk). }
  destruct (view_uint16_sum data Hev) as (ws & Hws & Hsum).
  assert (Hev' : Nat.even (length (flip_input i k data)) = true)
    by (unfold flip_input; rewrite length_alter; exact Hev).
  destruct (view_uint16_sum _ Hev') as (ws' & Hws' & Hsum').
  exists (Z.lxor (((fold_right Z.add 0 ws mod 2 ^ 64) mod 65536
                   + (fold_right Z.add 0 ws mod 2 ^ 64) / 65536) mod 2 ^ 64) 65535),
         (Z.lxor (((fold_right Z.add 0 ws' mod 2 ^ 64) mod 65536
                   + (fold_right Z.add 0 ws' mod 2 ^ 64) / 65536) mod 2 ^ 64) 65535).
  split; [apply checksum_16_value, Hws |].
  split; [apply checksum_16_value, Hws' |].
  intros E.
  assert (E' : forall a b, Z.lxor a 65535 = Z.lxor b 65535 -> a = b).
  { intros a b Hab.
    apply (f_equal (fun t => Z.lxor t 65535)) in Hab.
    rewrite !Z.lxor_assoc, !Z.lxor_nilpotent, !Z.lxor_0_r in Hab. exact Hab. }
  apply E' in E. revert E.
  rewrite Hsum, Hsum'. unfold flip_input.
  rewrite (word_sum_alter _ data Hev i x Hx).
  rewrite lxor_pow2_delta by lia.
  set (s := word_sum data).
  assert (Hw : byte_weight i = 1 \/ byte_weight i = 2 ^ 8)
    by (unfold byte_weight; destruct (Nat.even i); [left | right]; reflexivity).
  destruct Hw as [-> | ->].
  - destruct (Z.testbit x k).
    + replace (s + (x - 2 ^ k - x) * 1) with (s - 2 ^ k) by lia.
      apply (fold_separates s k false). lia.
    + replace (s + (x + 2 ^ k - x) * 1) with (s + 2 ^ k) by lia.
      apply (fold_separates s k true). lia.
  - destruct (Z.testbit x k).
    + replace (s + (x - 2 ^ k - x) * 2 ^ 8) with (s - 2 ^ (k + 8))
        by (rewrite Z.pow_add_r by lia; lia).
      apply (fold_separates s (k + 8) false). lia.
    + replace (s + (x + 2 ^ k - x) * 2 ^ 8) with (s + 2 ^ (k + 8))
        by (rewrite Z.pow_add_r by lia; lia).
      apply (fold_separates s (k + 8) true). lia.
Qed.

Lemma checksum_16_single_bit_witness :
  (forall d1 d2, d1 = d2 -> checksum_16 d1 = checksum_16 d2) /\
  Forall uint8 (flip_input 2 0 [1; 2; 3; 4]) /\
  exists c c',
    checksum_16 [1; 2; 3; 4] = Ok c /\
    checksum_16 (flip_input 2 0 [1; 2; 3; 4]) = Ok c' /\
    c <> c'.
Proof.
  apply (checksum_16_single_bit [1; 2; 3; 4] 2 0).
  - repeat constructor; unfold uint8; lia.
  - reflexivity.
  - cbn. lia.
  - lia.
Defined.

(** ** bitsparser.py: [reverse_bits] and [parse_line] *)

(** C1, evaluated: for the bit-swapped capture of the raw bits
    10000000, [parse_line] stores the sequence 128,0,0,0,0,0,0,0: each
    element is looked up as a byte of its own, so a 1 becomes 128 and
    no bit changes place.  The raw bit at offset 0 is not at offset 7,
    as the bytewise reversal asks. *)
Theorem parse_line_swapped_stores_128 :
  exists msg,
    parse_line (Some swapped_capture) = Ok msg /\
    swapped msg = true /\
    bitstream msg = [128; 0; 0; 0; 0; 0; 0; 0] /\
    ~ spec_reversed_bytewise [1; 0; 0; 0; 0; 0; 0; 0] (bitstream msg).
Proof.
  eexists. split; [vm_compute; reflexivity |].
  split; [reflexivity |]. split; [reflexivity |].
  intros [_ H]. specialize (H 0%nat 0%nat ltac:(lia) ltac:(cbn; lia)).
  cbn in H. discriminate.
Qed.

(** ** Reed-Solomon: the round trip and the frame check *)

(** C2, evaluated: over GF(2^8) with 8 parity symbols the 23-byte zero
    message encodes to the 31-byte zero codeword, and decoding that
    codeword raises NameError, because [rs_calc_syndromes] calls
    [gf_poly_eval], which the module never defines; over GF(2^6) with
    10 parity symbols encoding itself raises NameError on [gf_exp], and
    so does decoding a received word on [gf_poly_eval]. *)
Theorem rs_decode_of_encode_raises :
  Reedsolo.RSCodec_encode 8 (repeat 0 23) = Ok (repeat 0 31) /\
  Reedsolo.RSCodec_decode 8 (repeat 0 31) = Raise (NameError "gf_poly_eval") /\
  (g ← Reedsolo6.init_tables 0x43 2 6;
   Reedsolo6.rs_encode_msg Reedsolo6.module_namespace g (repeat 0 42) 10 2 None)
  = Raise (NameError "gf_exp") /\
  (g ← Reedsolo6.init_tables 0x43 2 6;
   Reedsolo6.rs_decode_msg Reedsolo6.module_namespace g (repeat 0 52) 10 2)
  = Raise (NameError "gf_poly_eval").
Proof. repeat split; vm_compute; reflexivity. Qed.

(** C3, evaluated: the all-zero 31-byte frame carries the parity that
    re-encoding its message gives (the zero message encodes to the zero
    codeword), and [rs_check] answers [False] for it, as it does for
    every frame: the call of [rs_encode_msg] passes the keyword [fcr],
    which the function does not take, and the TypeError is caught. *)
Theorem rs_check_rejects_valid_frame :
  Reedsolo.RSCodec_encode (Rs.NSYM + Rs.ELEN) (repeat 0 23) = Ok (repeat 0 39) /\
  (forall st, Rs.rs_check st (repeat 0 31) = false) /\
  (forall st data, Rs.rs_check st data = false) /\
  (forall g data, Rs6.rs_check g data = false).
Proof.
  split; [vm_compute; reflexivity |].
  split; [| split]; intros; reflexivity.
Qed.

(** * Further properties of [bch.py] *)

(** The remainder is shorter than the generator. *)
Theorem nndivide_remainder_bound (poly num : Z) :
  0 < poly -> 0 <= num ->
  0 <= nndivide poly num < 2 ^ (bit_length poly - 1).
Proof.
  intros Hp Hn. rewrite bit_length_pos by assumption.
  replace (Z.log2 poly + 1 - 1) with (Z.log2 poly) by lia.
  apply nndivide_range; assumption.
Qed.

Lemma nndivide_remainder_bound_witness :
  0 <= nndivide 29 127 < 2 ^ (bit_length 29 - 1).
Proof. apply (nndivide_remainder_bound 29 127); lia. Defined.

(** The syndrome of the sum of two words is the sum of their syndromes. *)
Theorem nndivide_additive (poly a b : Z) :
  0 < poly -> 0 <= a -> 0 <= b ->
  nndivide poly (Z.lxor a b) = Z.lxor (nndivide poly a) (nndivide poly b).
Proof. apply nndivide_lxor. Qed.

Lemma nndivide_additive_witness :
  nndivide 29 (Z.lxor 100 77) = Z.lxor (nndivide 29 100) (nndivide 29 77).
Proof. apply (nndivide_additive 29 100 77); lia. Defined.

Lemma nndivide_shifted (poly k : Z) :
  0 < poly -> 0 <= k -> nndivide poly (Z.shiftl poly k) = 0.
Proof.
  intros Hp Hk.
  pose proof (shifted_poly_range poly Hp (Z.to_nat k)) as Hr.
  rewrite Z2Nat.id in Hr by lia.
  pose proof (Z.log2_nonneg poly) as Hd.
  assert (Hfit : 0 <= Z.shiftl poly k
                 < 2 ^ (Z.of_nat (S (Z.to_nat k)) + Z.log2 poly)).
  { split; [apply Z.shiftl_nonneg; lia |].
    replace (Z.of_nat (S (Z.to_nat k)) + Z.log2 poly)
      with (k + Z.log2 poly + 1) by lia. lia. }
  rewrite (nndivide_reduce poly Hp _ _ Hfit), reduce_S by assumption.
  unfold reduce_step. rewrite Z2Nat.id by lia.
  replace (Z.shiftl poly k >=? 2 ^ (k + Z.log2 poly)) with true
    by (symmetry; apply Z.geb_le; lia).
  rewrite Z.lxor_nilpotent.
  assert (H0 : 0 <= 0 < 2 ^ (Z.of_nat (Z.to_nat k) + Z.log2 poly))
    by (split; [lia | apply Z.pow_pos_nonneg; lia]).
  rewrite <- (nndivide_reduce poly Hp _ _ H0). reflexivity.
Qed.

Lemma multiply_loop_syndrome (poly : Z) (fuel : nat) :
  0 < poly ->
  forall b idx result,
    0 <= idx -> 0 <= result -> nndivide poly result = 0 ->
    0 <= multiply_loop fuel poly b idx result /\
    nndivide poly (multiply_loop fuel poly b idx result) = 0.
Proof.
  intros Hp. induction fuel as [| fuel IH]; intros b idx result Hi Hr Hz.
  - split; assumption.
  - cbn [multiply_loop]. destruct (b >? 0); [| split; assumption].
    destruct (b mod 2 =? 0); [apply IH; (lia || assumption) |].
    assert (Hs : 0 <= Z.shiftl poly idx) by (apply Z.shiftl_nonneg; lia).
    apply IH; [lia | apply Z.lxor_nonneg; lia |].
    rewrite nndivide_lxor, Hz, nndivide_shifted by lia. reflexivity.
Qed.

(** Every multiple of the generator, as [multiply] computes it, has a
    zero syndrome. *)
Theorem multiply_zero_syndrome (poly q : Z) :
  0 < poly -> nndivide poly (multiply poly q) = 0.
Proof.
  intros Hp. unfold multiply.
  apply (multiply_loop_syndrome poly _ Hp); [lia | lia | reflexivity].
Qed.

Lemma multiply_zero_syndrome_witness : nndivide 1897 (multiply 1897 1234567) = 0.
Proof. apply (multiply_zero_syndrome 1897 1234567). lia. Defined.

Lemma first_zero_some (poly : Z) (cands : list Z) (m : Z) :
  first_zero poly cands = Some m -> In m cands /\ nndivide poly m = 0.
Proof.
  induction cands as [| x cands IH]; [discriminate |].
  cbn [first_zero]. destruct (Z.eqb_spec (nndivide poly x) 0) as [E | _].
  - intros [= <-]. split; [left; reflexivity | exact E].
  - intros H. destruct (IH H) as [Hin Hz]. split; [right |]; assumption.
Qed.

Lemma format_0b_digits (w n : Z) :
  0 < w -> 0 <= n < 2 ^ w -> format_0b w n = digits (Z.to_nat w) n.
Proof.
  intros Hw Hn.
  assert (Hd : int2 (digits (Z.to_nat w) n) = Ok n)
    by (apply int2_of_digits; [lia | rewrite Z2Nat.id by lia; exact Hn]).
  pose proof (format_int2 _ _ Hd) as Hf.
  unfold len in Hf. rewrite length_digits, Z2Nat.id in Hf by lia. exact Hf.
Qed.

Lemma corrected_word (poly blen m : Z) :
  0 < blen -> 0 <= m < 2 ^ blen -> nndivide poly m = 0 ->
  len (format_0b blen m) = blen /\ ndivide poly (format_0b blen m) = Ok 0.
Proof.
  intros Hb Hm Hz. rewrite format_0b_digits by assumption.
  unfold len, ndivide. rewrite length_digits.
  rewrite int2_of_digits by (rewrite ?Z2Nat.id; lia).
  cbn. rewrite Hz. split; [lia | reflexivity].
Qed.

(** What [repair] answers is one of the four counts, keeps the length
    of the word, is the word itself when the count is the sentinel, and
    is a codeword otherwise. *)
Theorem repair_sound (poly : Z) (b w : string) (n : Z) :
  repair poly b = Ok (n, w) ->
  (n = 0 \/ n = 1 \/ n = 2 \/ n = -1) /\
  len w = len b /\
  (n = -1 -> w = b) /\
  (n <> -1 -> ndivide poly w = Ok 0).
Proof.
  unfold repair. destruct (int2 b) as [bnum | e] eqn:Hb; [| discriminate].
  cbn [mbind result_bind Py.bind].
  pose proof (int2_digits _ _ Hb) as (Hrange & _ & Hlen).
  destruct (Z.eqb_spec (nndivide poly bnum) 0) as [Hz | Hnz].
  - intros [= <- <-].
    assert (Hc : ndivide poly b = Ok 0)
      by (unfold ndivide; rewrite Hb; cbn; rewrite Hz; reflexivity).
    repeat split; first [lia | tauto].
  - destruct (first_zero poly (flips1 bnum (len b))) as [m |] eqn:H1.
    + intros [= <- <-]. apply first_zero_some in H1 as [Hin Hm].
      apply in_flips1 in Hin as (b1 & Hb1 & ->).
      rewrite Z.shiftl_1_l in Hm |- *.
      pose proof (lxor_pow2_range bnum (len b) b1 Hrange Hb1) as Hr.
      destruct (corrected_word poly (len b) _ Hlen Hr Hm) as [Hl Hc].
      repeat split; first [lia | tauto].
    + destruct (first_zero poly (flips2 bnum (len b))) as [m |] eqn:H2.
      * intros [= <- <-]. apply first_zero_some in H2 as [Hin Hm].
        apply in_flips2 in Hin as (b1 & b2 & H12 & Hlt & ->).
        rewrite !Z.shiftl_1_l in Hm |- *.
        pose proof (lxor_pow2_range bnum (len b) b1 Hrange ltac:(lia)) as Hr1.
        pose proof (lxor_pow2_range _ (len b) b2 Hr1 ltac:(lia)) as Hr.
        destruct (corrected_word poly (len b) _ Hlen Hr Hm) as [Hl Hc].
        repeat split; first [lia | tauto].
      * intros [= <- <-]. repeat split; first [lia | tauto].
Qed.

Lemma repair_sound_witness :
  (1 = 0 \/ 1 = 1 \/ 1 = 2 \/ 1 = -1) /\
  len "0000000" = len "0001000" /\
  (1 = -1 -> "0000000" = "0001000") /\
  (1 <> -1 -> ndivide 29 "0000000" = Ok 0).
Proof. apply (repair_sound 29 "0001000" "0000000" 1). reflexivity. Defined.

(** [repair] reads its word with [int(b, 2)]: the empty string is a
    ValueError, whatever the polynomial. *)
Theorem repair_empty (poly : Z) : repair poly "" = Raise ValueError.
Proof. reflexivity. Qed.

Lemma distinctb_spec (l : list Z) : distinctb l = true -> List.NoDup l.
Proof.
  induction l as [| x l IH]; intros H; [apply List.NoDup_nil |].
  cbn [distinctb] in H. apply andb_prop in H as [Hx Hl].
  apply List.NoDup_cons; [| apply IH, Hl].
  intros Hin. apply negb_true_iff in Hx.
  assert (existsb (Z.eqb x) l = true)
    by (apply existsb_exists; exists x; split; [exact Hin | apply Z.eqb_refl]).
  congruence.
Qed.

Lemma nodup_map_injective {A} (f : A -> Z) (l : list A) :
  List.NoDup (map f l) ->
  forall x y, In x l -> In y l -> f x = f y -> x = y.
Proof.
  induction l as [| a l IH]; intros Hnd x y Hx Hy E; [contradiction |].
  cbn [map] in Hnd. apply List.NoDup_cons_iff in Hnd as [Ha Hnd].
  destruct Hx as [-> | Hx], Hy as [-> | Hy].
  - reflexivity.
  - exfalso. apply Ha. rewrite E. apply in_map, Hy.
  - exfalso. apply Ha. rewrite <- E. apply in_map, Hx.
  - apply IH; assumption.
Qed.

Lemma patterns_separated_spec (poly : Z) (pats : list entry) :
  patterns_separated poly pats = true ->
  (forall e, In e pats -> nndivide poly (snd e) <> 0) /\
  (forall e1 e2, In e1 pats -> In e2 pats ->
     nndivide poly (snd e1) = nndivide poly (snd e2) -> e1 = e2).
Proof.
  unfold patterns_separated. intros H. apply andb_prop in H as [Hnz Hd].
  split.
  - intros e He. rewrite forallb_forall in Hnz.
    specialize (Hnz _ (in_map (fun e => nndivide poly (snd e)) _ _ He)).
    apply negb_true_iff, Z.eqb_neq in Hnz. exact Hnz.
  - apply (nodup_map_injective (fun e => nndivide poly (snd e))).
    apply distinctb_spec, Hd.
Qed.

Lemma in_patterns1 (bits i : Z) :
  0 <= i < bits -> In (1, Z.shiftl 1 i) (patterns1 bits).
Proof.
  intros Hi. unfold patterns1. apply in_map_iff. exists i.
  split; [reflexivity | apply in_range, Hi].
Qed.

Lemma in_patterns2 (bits i j : Z) :
  0 <= i < j -> j < bits ->
  In (2, Z.lor (Z.shiftl 1 i) (Z.shiftl 1 j)) (patterns2 bits).
Proof.
  intros Hi Hj. unfold patterns2. apply in_flat_map. exists i.
  split; [apply in_range; lia |].
  apply in_map_iff. exists j. split; [reflexivity | apply in_range2; lia].
Qed.

Lemma lor_pow2_bits (i j m : Z) :
  0 <= i -> 0 <= j ->
  Z.testbit (Z.lor (Z.shiftl 1 i) (Z.shiftl 1 j)) m = (i =? m) || (j =? m).
Proof.
  intros Hi Hj. rewrite Z.lor_spec, !Z.shiftl_1_l, !Z.pow2_bits_eqb by lia.
  reflexivity.
Qed.

Lemma lor_pow2_lxor (i j : Z) :
  0 <= i -> 0 <= j -> i <> j ->
  Z.lor (Z.shiftl 1 i) (Z.shiftl 1 j) = Z.lxor (2 ^ i) (2 ^ j).
Proof.
  intros Hi Hj Hne. apply Z.bits_inj'. intros m Hm.
  rewrite lor_pow2_bits, Z.lxor_spec, !Z.pow2_bits_eqb by lia.
  destruct (Z.eqb_spec i m), (Z.eqb_spec j m); try reflexivity. lia.
Qed.

Lemma lor_pow2_injective (i j a b : Z) :
  0 <= i < j -> 0 <= a < b ->
  Z.lor (Z.shiftl 1 i) (Z.shiftl 1 j) = Z.lor (Z.shiftl 1 a) (Z.shiftl 1 b) ->
  i = a /\ j = b.
Proof.
  intros Hij Hab E.
  assert (Hbit : forall m, (i =? m) || (j =? m) = (a =? m) || (b =? m)).
  { intros m. rewrite <- !lor_pow2_bits by lia. rewrite E. reflexivity. }
  pose proof (Hbit i) as Ei. pose proof (Hbit j) as Ej.
  pose proof (Hbit a) as Ea. pose proof (Hbit b) as Eb.
  rewrite Z.eqb_refl in Ei, Ej, Ea, Eb. cbn [orb] in *.
  rewrite orb_true_r in Ej, Eb.
  symmetry in Ei, Ej.
  apply orb_true_iff in Ei, Ej, Ea, Eb.
  rewrite !Z.eqb_eq in Ei, Ej, Ea, Eb. lia.
Qed.

Lemma first_zero_unique (poly : Z) (cands : list Z) (m : Z) :
  In m cands -> nndivide poly m = 0 ->
  (forall x, In x cands -> nndivide poly x = 0 -> x = m) ->
  first_zero poly cands = Some m.
Proof.
  induction cands as [| x cands IH]; intros Hin Hm Huniq; [contradiction |].
  cbn [first_zero]. destruct (Z.eqb_spec (nndivide poly x) 0) as [E | Hne].
  - f_equal. apply Huniq; [left; reflexivity | exact E].
  - destruct Hin as [-> | Hin]; [contradiction |].
    apply IH; [exact Hin | exact Hm |].
    intros y Hy. apply Huniq. right. exact Hy.
Qed.

(** Two flipped bits in a code whose one- and two-bit patterns all have
    different non-zero syndromes: the single-flip loop finds nothing and
    the pair loop finds the two positions and nothing else. *)
Lemma repair_double_flip_separated (poly bits : Z) (c : string) (i j : Z) :
  0 < poly ->
  patterns_separated poly (enumeration bits) = true ->
  len c = bits ->
  ndivide poly c = Ok 0 ->
  0 <= i < j -> j < bits ->
  repair poly (flip_bit (Z.to_nat i) (flip_bit (Z.to_nat j) c)) = Ok (2, c).
Proof.
  intros Hp Hsep Hlen Hc Hij Hj.
  apply patterns_separated_spec in Hsep as [Hnz Hinj].
  apply ndivide_ok in Hc as (n & Hn & Hr).
  pose proof (int2_digits _ _ Hn) as (Hrange & _ & _).
  set (E := Z.lxor (2 ^ j) (2 ^ i)).
  assert (HE : 0 <= E)
    by (apply Z.lxor_nonneg; pose proof (Z.pow_nonneg 2 i); pose proof (Z.pow_nonneg 2 j); lia).
  assert (HEpat : Z.lor (Z.shiftl 1 i) (Z.shiftl 1 j) = E)
    by (unfold E; rewrite lor_pow2_lxor by lia; apply Z.lxor_comm).
  assert (HEin : In (2, E) (enumeration bits)).
  { rewrite <- HEpat. unfold enumeration. apply in_or_app. right.
    apply in_patterns2; lia. }
  (* the received word *)
  pose proof (int2_flip_bit c n (Z.to_nat j) Hn ltac:(lia)) as Hf1.
  assert (Hl1 : len (flip_bit (Z.to_nat j) c) = bits)
    by (unfold len in *; rewrite length_flip_bit; exact Hlen).
  pose proof (int2_flip_bit _ _ (Z.to_nat i) Hf1 ltac:(lia)) as Hf2.
  assert (Hl2 : len (flip_bit (Z.to_nat i) (flip_bit (Z.to_nat j) c)) = bits)
    by (unfold len in *; rewrite length_flip_bit; exact Hl1).
  rewrite !Z2Nat.id in Hf2 by lia. rewrite Z.lxor_assoc in Hf2. fold E in Hf2.
  assert (Hrec : 0 <= Z.lxor n E) by (apply Z.lxor_nonneg; lia).
  assert (HsynE : nndivide poly (Z.lxor n E) = nndivide poly E)
    by (rewrite nndivide_lxor, Hr, Z.lxor_0_l by lia; reflexivity).
  unfold repair. rewrite Hf2. cbn [mbind result_bind Py.bind].
  rewrite HsynE, Hl2.
  destruct (Z.eqb_spec (nndivide poly E) 0) as [Ez | _];
    [exfalso; exact (Hnz (2, E) HEin Ez) |].
  rewrite first_zero_none.
  - rewrite (first_zero_unique poly _ n).
    + rewrite <- Hlen, (format_int2 c n Hn). reflexivity.
    + unfold flips2. apply in_flat_map. exists i.
      split; [apply in_range; lia |].
      apply in_map_iff. exists j. split; [| apply in_range2; lia].
      rewrite !Z.shiftl_1_l, !Z.lxor_assoc, (Z.lxor_comm (2 ^ i) (2 ^ j)).
      fold E. rewrite Z.lxor_nilpotent, Z.lxor_0_r. reflexivity.
    + exact Hr.
    + intros x Hx Hxz.
      apply in_flips2 in Hx as (b1 & b2 & H12 & Hb2 & ->).
      rewrite !Z.shiftl_1_l in Hxz |- *.
      set (E' := Z.lxor (2 ^ b1) (2 ^ b2)).
      assert (HE' : 0 <= E')
        by (apply Z.lxor_nonneg; pose proof (Z.pow_nonneg 2 b1);
            pose proof (Z.pow_nonneg 2 b2); lia).
      rewrite Z.lxor_assoc in Hxz |- *. fold E' in Hxz |- *.
      rewrite nndivide_lxor, HsynE in Hxz by lia.
      apply Z.lxor_eq in Hxz.
      assert (Hpat' : Z.lor (Z.shiftl 1 b1) (Z.shiftl 1 b2) = E')
        by (unfold E'; apply lor_pow2_lxor; lia).
      assert (Hin' : In (2, E') (enumeration bits)).
      { rewrite <- Hpat'. unfold enumeration. apply in_or_app. right.
        apply in_patterns2; lia. }
      pose proof (Hinj (2, E) (2, E') HEin Hin' Hxz) as Heq.
      injection Heq as <-.
      rewrite Z.lxor_assoc, Z.lxor_nilpotent. apply Z.lxor_0_r.
  - intros m Hm. apply in_flips1 in Hm as (b1 & Hb1 & ->).
    rewrite Z.shiftl_1_l.
    assert (0 <= 2 ^ b1) by (apply Z.pow_nonneg; lia).
    rewrite nndivide_lxor, HsynE by lia.
    intros Hz. apply Z.lxor_eq in Hz.
    assert (Hin1 : In (1, Z.shiftl 1 b1) (enumeration bits))
      by (unfold enumeration; apply in_or_app; left; apply in_patterns1; lia).
    rewrite <- Z.shiftl_1_l in Hz.
    pose proof (Hinj (2, E) (1, Z.shiftl 1 b1) HEin Hin1 Hz) as Heq.
    discriminate Heq.
Qed.

(** In each of the four configurations installed for two errors,
    flipping any two bits of a codeword is repaired to the codeword
    with an error count of 2. *)
Theorem repair_double_flip (poly bits synbits : Z) (c : string) (i j : Z) :
  In (poly, bits, synbits, 2) configurations ->
  len c = bits ->
  ndivide poly c = Ok 0 ->
  0 <= i < j -> j < bits ->
  repair poly (flip_bit (Z.to_nat i) (flip_bit (Z.to_nat j) c)) = Ok (2, c).
Proof.
  intros Hcfg. unfold configurations in Hcfg. cbn [In] in Hcfg.
  repeat (destruct Hcfg as [Hcfg | Hcfg];
          [first [discriminate Hcfg
                 | injection Hcfg as <- <- <-;
                   apply repair_double_flip_separated;
                   [lia | vm_compute; reflexivity]] |]).
  contradiction.
Qed.

Lemma repair_double_flip_witness :
  repair 465 (flip_bit 2 (flip_bit 9 "00000000000000")) = Ok (2, "00000000000000").
Proof.
  apply (repair_double_flip 465 14 8 "00000000000000" 2 9).
  - right. left. reflexivity.
  - reflexivity.
  - reflexivity.
  - lia.
  - lia.
Defined.

Lemma written_pattern_nonneg (bits errors : Z) (e : entry) :
  In e (map pattern_of (writes bits errors)) -> 0 <= snd e.
Proof.
  unfold writes. rewrite map_app, in_app_iff, !in_map_iff.
  intros [(w & <- & Hw) | (w & <- & Hw)].
  - apply in_map_iff in Hw as (e1 & <- & He1).
    unfold patterns1 in He1. apply in_map_iff in He1 as (n1 & <- & _).
    cbn. apply Z.shiftl_nonneg. lia.
  - destruct (errors >=? 2); [| contradiction].
    apply in_map_iff in Hw as (e2 & <- & He2).
    unfold patterns2 in He2. apply in_flat_map in He2 as (n1 & _ & He2).
    apply in_map_iff in He2 as (n2 & <- & _).
    cbn. apply lor_pow2_nonneg.
Qed.

Lemma configurations_complete (poly bits synbits errors : Z) :
  In (poly, bits, synbits, errors) configurations ->
  table_complete_b poly (map pattern_of (writes bits errors))
    (mk_table poly bits synbits errors) = true.
Proof.
  intros Hcfg. unfold configurations in Hcfg. cbn [In] in Hcfg.
  repeat (destruct Hcfg as [Hcfg | Hcfg];
          [injection Hcfg as <- <- <- <-; vm_compute; reflexivity |]).
  contradiction.
Qed.

(** The installed tables decode: for a codeword hit by any error
    pattern its configuration enumerates (one bit, and two bits where
    two errors are configured), the table slot at the syndrome of the
    received word holds exactly that pattern and its weight. *)
Theorem table_lookup_corrects (poly bits synbits errors : Z) :
  In (poly, bits, synbits, errors) configurations ->
  exists t : table,
    installed poly = Some t /\
    forall (n wt pat : Z),
      0 <= n -> nndivide poly n = 0 ->
      In (wt, pat) (map pattern_of (writes bits errors)) ->
      getitem t (nndivide poly (Z.lxor n pat)) = Ok (Some (wt, pat)).
Proof.
  intros Hcfg.
  pose proof (installed_made _ _ _ _ Hcfg) as Hi.
  pose proof (configurations_complete _ _ _ _ Hcfg) as Hc.
  destruct (configurations_checked _ _ _ _ Hcfg) as (Hp & _).
  unfold made in Hi. unfold table_complete_b in Hc.
  destruct (mk_table poly bits synbits errors) as [t | ex]; [| discriminate].
  exists t. split; [exact Hi |].
  intros n wt pat Hn Hz Hin.
  pose proof (written_pattern_nonneg _ _ _ Hin) as Hpat. cbn in Hpat.
  rewrite nndivide_lxor, Hz, Z.lxor_0_l by lia.
  rewrite forallb_forall in Hc. specialize (Hc _ Hin). cbn [snd] in Hc.
  destruct (getitem t (nndivide poly pat)) as [[e' |] | ex];
    [| discriminate Hc | discriminate Hc].
  apply entry_eqb_eq in Hc. subst e'. reflexivity.
Qed.

Lemma table_lookup_corrects_witness :
  exists t : table,
    installed 1897 = Some t /\
    forall (n wt pat : Z),
      0 <= n -> nndivide 1897 n = 0 ->
      In (wt, pat) (map pattern_of (writes 31 2)) ->
      getitem t (nndivide 1897 (Z.lxor n pat)) = Ok (Some (wt, pat)).
Proof.
  apply (table_lookup_corrects 1897 31 10 2).
  do 3 right. left. reflexivity.
Defined.

(** * Further properties of [bitsparser.py] *)

Lemma lookup_table_mirrors :
  exists tbl,
    lookup_table = Ok tbl /\
    forall x, uint8 x -> exists y, getitem tbl x = Ok y /\ mirrored x y.
Proof.
  assert (H : table_mirrors lookup_table = true) by (vm_compute; reflexivity).
  unfold table_mirrors in H.
  destruct lookup_table as [tbl | e]; [| discriminate H].
  exists tbl. split; [reflexivity |].
  intros x Hx. pose proof (forallb_range _ _ H x Hx) as Hc. cbn beta in Hc.
  destruct (getitem tbl x) as [y | e]; [| discriminate Hc].
  exists y. split; [reflexivity |].
  apply andb_prop in Hc as [Hr Hb]. apply andb_prop in Hr as [Hlo Hhi].
  split; [unfold uint8; lia |].
  intros j Hj. pose proof (forallb_range _ _ Hb j Hj) as E.
  apply Bool.eqb_prop in E. exact E.
Qed.

Lemma mirrored_back (x y z : Z) :
  uint8 x -> mirrored x y -> mirrored y z -> z = x.
Proof.
  intros Hx [Hy Hxy] [Hz Hyz]. apply Z.bits_inj'. intros j Hj.
  destruct (Z_lt_le_dec j 8) as [Hlt | Hge].
  - rewrite Hyz, Hxy by lia. f_equal. lia.
  - unfold uint8 in *. change 256 with (2 ^ 8) in *.
    rewrite (proj1 (lt_pow2_bits z 8 ltac:(lia) ltac:(lia)) ltac:(lia) j Hge).
    rewrite (proj1 (lt_pow2_bits x 8 ltac:(lia) ltac:(lia)) ltac:(lia) j Hge).
    reflexivity.
Qed.

Lemma comprehension_getitem (tbl data : list Z) :
  Forall uint8 data ->
  (forall x, uint8 x -> exists y, getitem tbl x = Ok y /\ mirrored x y) ->
  exists out,
    comprehension (fun d => getitem tbl d) data = Ok out /\
    Forall2 mirrored data out.
Proof.
  intros Hdata Htbl. induction Hdata as [| x data Hx Hdata IH].
  - exists []. split; [reflexivity | constructor].
  - destruct IH as (out & Hout & Hrel).
    destruct (Htbl x Hx) as (y & Hy & Hm).
    exists (y :: out). cbn [comprehension]. rewrite Hy, Hout.
    split; [reflexivity | constructor; assumption].
Qed.

(** On an array of bytes [reverse_bits] succeeds, mirrors the bit
    order inside every byte (bit [j] of the result is bit [7 - j] of the
    input, element by element), and applied twice gives the input
    back. *)
Theorem reverse_bits_involutive (data : list Z) :
  Forall uint8 data ->
  exists out,
    reverse_bits data = Ok out /\
    Forall2 mirrored data out /\
    reverse_bits out = Ok data.
Proof.
  intros Hdata.
  destruct lookup_table_mirrors as (tbl & Htbl & Hm).
  destruct (comprehension_getitem tbl data Hdata Hm) as (out & Hout & Hrel).
  exists out. unfold reverse_bits. rewrite Htbl.
  cbn [mbind result_bind Py.bind].
  split; [exact Hout | split; [exact Hrel |]].
  assert (Hout8 : Forall uint8 out).
  { clear Hout. induction Hrel as [| x y data out [Hy _] _ IH];
      constructor; [exact Hy | apply IH]. inversion Hdata; assumption. }
  destruct (comprehension_getitem tbl out Hout8 Hm) as (back & Hback & Hrel').
  rewrite Hback. f_equal.
  clear Hout Hback Hout8. revert back Hrel'.
  induction Hrel as [| x y data out Hxy Hrel IH]; intros back Hrel'.
  - inversion Hrel'. reflexivity.
  - inversion Hrel' as [| y' z out' back' Hyz Hrest]; subst.
    inversion Hdata as [| x' data' Hx Hdata']; subst.
    f_equal; [eapply mirrored_back; eassumption | apply IH; assumption].
Qed.

Lemma reverse_bits_involutive_witness :
  exists out,
    reverse_bits [1; 2; 255] = Ok out /\
    Forall2 mirrored [1; 2; 255] out /\
    reverse_bits out = Ok [1; 2; 255].
Proof.
  apply (reverse_bits_involutive [1; 2; 255]).
  repeat constructor; unfold uint8; lia.
Defined.





Lemma stride_from_lookup (step : nat) (bits : list Z) :
  (1 <= step)%nat ->
  forall (skip j : nat),
    stride_from skip step bits !! j = bits !! (skip + j * step)%nat.
Proof.
  intros Hstep. induction bits as [| b bits IH]; intros skip j.
  - cbn [stride_from]. rewrite !lookup_nil. reflexivity.
  - cbn [stride_from]. destruct skip as [| skip].
    + destruct j as [| j]; [reflexivity |].
      cbn [lookup list_lookup Nat.add Nat.mul]. rewrite IH.
      destruct step as [| step]; [lia |]. cbn [lookup list_lookup Nat.add].
      f_equal. lia.
    + rewrite IH. reflexivity.
Qed.

Lemma stride_lengths2 (bits : list Z) :
  (length (stride_from 0 2 bits) + length (stride_from 1 2 bits)
   = length bits)%nat.
Proof.
  induction bits as [| b bits IH]; [reflexivity |].
  cbn [stride_from length Nat.sub]. lia.
Qed.

Lemma stride_lengths3 (bits : list Z) :
  (length (stride_from 0 3 bits) + length (stride_from 1 3 bits)
   + length (stride_from 2 3 bits) = length bits)%nat.
Proof.
  induction bits as [| b bits IH]; [reflexivity |].
  cbn [stride_from length Nat.sub]. lia.
Qed.

(** [de_interleave] with the default step shares the elements out to
    two streams: element [k] of the first is element [2k] of the input,
    element [k] of the second is element [2k + 1], and nothing is lost
    or repeated.  [de_interleave3] does the same over three streams. *)
Theorem de_interleave_lookup (bits : list Z) :
  (forall k : nat,
      fst (de_interleave bits 2) !! k = bits !! (2 * k)%nat /\
      snd (de_interleave bits 2) !! k = bits !! (2 * k + 1)%nat) /\
  (length (fst (de_interleave bits 2)) + length (snd (de_interleave bits 2))
   = length bits)%nat /\
  (forall k : nat,
      fst (fst (de_interleave3 bits)) !! k = bits !! (3 * k)%nat /\
      snd (fst (de_interleave3 bits)) !! k = bits !! (3 * k + 1)%nat /\
      snd (de_interleave3 bits) !! k = bits !! (3 * k + 2)%nat) /\
  (length (fst (fst (de_interleave3 bits)))
   + length (snd (fst (de_interleave3 bits)))
   + length (snd (de_interleave3 bits)) = length bits)%nat.
Proof.
  unfold de_interleave, de_interleave3. cbn [fst snd].
  split; [| split; [apply stride_lengths2 | split; [| apply stride_lengths3]]].
  - intros k. rewrite !stride_from_lookup by lia.
    split; f_equal; lia.
  - intros k. rewrite !stride_from_lookup by lia.
    repeat split; f_equal; lia.
Qed.

(** [extract_symbols] refuses a bit stream shorter than the 24
    characters of the access pattern with a ParserError and otherwise
    returns the streams of the even and of the odd positions. *)
Theorem extract_symbols_split (msg : Message) :
  ((length (bitstream msg) < 24)%nat ->
   extract_symbols msg
   = Raise (ParserError "Bitstream too short to extract symbols.")) /\
  ((24 <= length (bitstream msg))%nat ->
   exists symbols extra,
     extract_symbols msg = Ok (symbols, extra) /\
     forall k : nat,
       symbols !! k = bitstream msg !! (2 * k)%nat /\
       extra !! k = bitstream msg !! (2 * k + 1)%nat).
Proof.
  unfold extract_symbols. change (len IRIDIUM_ACCESS) with 24. split.
  - intros Hs.
    destruct (Z.ltb_spec (Z.of_nat (length (bitstream msg))) 24); [reflexivity | lia].
  - intros Hl.
    destruct (Z.ltb_spec (Z.of_nat (length (bitstream msg))) 24); [lia |].
    eexists _, _. split; [reflexivity |].
    intros k. apply (proj1 (de_interleave_lookup (bitstream msg))).
Qed.

(** [checksum_16] returns a value, an unsigned 64-bit one, exactly on
    inputs of an even number of bytes; on an odd number the view as
    16-bit words is a ValueError. *)
Theorem checksum_16_defined (data : list Z) :
  (Nat.even (length data) = true ->
   exists c, checksum_16 data = Ok c /\ 0 <= c < 2 ^ 64) /\
  (Nat.even (length data) = false -> checksum_16 data = Raise ValueError).
Proof.
  split.
  - intros Hev. destruct (view_uint16_sum data Hev) as (ws & Hws & _).
    eexists. split; [apply checksum_16_value, Hws |].
    apply lxor_range; [lia | apply Z.mod_pos_bound; lia | lia].
  - intros Hodd. unfold checksum_16. rewrite (view_uint16_odd data Hodd).
    reflexivity.
Qed.

Lemma extract_symbols_split_witness :
  extract_symbols {| swapped := false; filename := "f"; access_ok := None;
                     id := "7"; bitstream := [1; 0; 1] |}
  = Raise (ParserError "Bitstream too short to extract symbols.").
Proof.
  apply (proj1 (extract_symbols_split
                  {| swapped := false; filename := "f"; access_ok := None;
                     id := "7"; bitstream := [1; 0; 1] |})).
  cbn. lia.
Defined.

Lemma checksum_16_defined_witness :
  exists c, checksum_16 [1; 2; 3; 4] = Ok c /\ 0 <= c < 2 ^ 64.
Proof. apply (proj1 (checksum_16_defined [1; 2; 3; 4])). reflexivity. Defined.

(** * Further properties of the Reed-Solomon modules *)

Lemma comprehension_raises {A B} (f : A -> result B) (x : A) (xs : list A)
    (e : exn) :
  f x = Raise e -> comprehension f (x :: xs) = Raise e.
Proof. intros H. cbn [comprehension]. rewrite H. reflexivity. Qed.

Lemma range_pos (n : Z) : 0 < n -> range n = 0 :: range2 1 n.
Proof.
  intros Hn. rewrite (range_split n 0) by lia. reflexivity.
Qed.

Lemma range_nonpos (n : Z) : n <= 0 -> range n = [].
Proof.
  intros Hn. unfold range, range2.
  replace (Z.to_nat (n - 0)) with 0%nat by lia. reflexivity.
Qed.

(** [reedsolo.rs_correct_msg] never returns: on a sequence that is not
    made of bytes it raises OverflowError, with [nsym >= 1] it raises
    NameError at the first call of the undefined [gf_poly_eval], and
    with [nsym <= 0] it raises ValueError ([max] of no syndromes),
    whatever the state of the tables. *)
Theorem rs_correct_msg_never_returns (st : option Reedsolo.gf)
    (msg_in : list Z) (nsym : Z) :
  Reedsolo.rs_correct_msg Reedsolo.module_namespace st msg_in nsym
  = if negb (forallb byte_ok msg_in) then Raise OverflowError
    else if 0 <? nsym then Raise (NameError "gf_poly_eval")
    else Raise ValueError.
Proof.
  unfold Reedsolo.rs_correct_msg, array_B.
  destruct (forallb byte_ok msg_in); [| reflexivity].
  cbn [negb mbind result_bind Py.bind]. unfold Reedsolo.rs_calc_syndromes.
  destruct (Z.ltb_spec 0 nsym) as [Hpos | Hle].
  - rewrite (range_pos nsym Hpos).
    rewrite (comprehension_raises _ _ _ (NameError "gf_poly_eval"));
      reflexivity.
  - rewrite (range_nonpos nsym Hle). reflexivity.
Qed.

(** [reedsolo6.rs_decode_msg] never returns either, and
    [reedsolo6.rs_encode_msg] without an explicit generator polynomial
    raises NameError at the undefined [gf_exp] as soon as [nsym >= 1]. *)
Theorem reedsolo6_codec_raises (g : Reedsolo6.gf) (msg : list Z)
    (nsym generator : Z) :
  Reedsolo6.rs_decode_msg Reedsolo6.module_namespace g msg nsym generator
  = (if 0 <? nsym then Raise (NameError "gf_poly_eval") else Raise ValueError)
  /\
  (0 < nsym ->
   Reedsolo6.rs_encode_msg Reedsolo6.module_namespace g msg nsym generator None
   = Raise (NameError "gf_exp")).
Proof.
  split.
  - unfold Reedsolo6.rs_decode_msg.
    destruct (Z.ltb_spec 0 nsym) as [Hpos | Hle].
    + rewrite (range_pos nsym Hpos).
      rewrite (comprehension_raises _ _ _ (NameError "gf_poly_eval"));
        reflexivity.
    + rewrite (range_nonpos nsym Hle). reflexivity.
  - intros Hpos. unfold Reedsolo6.rs_encode_msg, Reedsolo6.rs_generator_poly.
    rewrite (range_pos nsym Hpos). reflexivity.
Qed.

Lemma reedsolo6_codec_raises_witness :
  Reedsolo6.rs_encode_msg Reedsolo6.module_namespace Reedsolo6.initial
    [1; 2; 3] 10 2 None
  = Raise (NameError "gf_exp").
Proof.
  apply (proj2 (reedsolo6_codec_raises Reedsolo6.initial [1; 2; 3] 10 2)). lia.
Defined.


(** ** Arithmetic by table lookup *)

Section Lut.

Variables (exp log : list Z) (field : Z).
Hypothesis field_pos : 0 < field.
Hypothesis tables_ok : tables_inverse_b exp log field = true.

Lemma log_spec (x : Z) :
  1 <= x <= field ->
  exists l, getitem log x = Ok l /\ 0 <= l < field /\ getitem exp l = Ok x.
Proof.
  intros Hx. unfold tables_inverse_b in tables_ok.
  apply andb_prop in tables_ok as [H _]. apply andb_prop in H as [H _].
  pose proof (forallb_range2 _ _ _ H x ltac:(lia)) as Hc. cbn beta in Hc.
  destruct (getitem log x) as [l | e]; [| discriminate Hc].
  apply andb_prop in Hc as [Hr He]. apply andb_prop in Hr as [Hlo Hhi].
  exists l. split; [reflexivity | split; [lia |]].
  unfold ok_is in He. destruct (getitem exp l) as [y | e]; [| discriminate He].
  apply Z.eqb_eq in He. subst y. reflexivity.
Qed.

Lemma exp_spec (i : Z) :
  0 <= i < field ->
  exists y, getitem exp i = Ok y /\ 1 <= y <= field /\ getitem log y = Ok i.
Proof.
  intros Hi. unfold tables_inverse_b in tables_ok.
  apply andb_prop in tables_ok as [H _]. apply andb_prop in H as [_ H].
  pose proof (forallb_range _ _ H i Hi) as Hc. cbn beta in Hc.
  destruct (getitem exp i) as [y | e]; [| discriminate Hc].
  apply andb_prop in Hc as [Hc _]. apply andb_prop in Hc as [Hr He].
  apply andb_prop in Hr as [Hlo Hhi].
  exists y. split; [reflexivity | split; [lia |]].
  unfold ok_is in He. destruct (getitem log y) as [l | e]; [| discriminate He].
  apply Z.eqb_eq in He. subst l. reflexivity.
Qed.

Lemma log_one : getitem log 1 = Ok 0.
Proof.
  unfold tables_inverse_b in tables_ok.
  apply andb_prop in tables_ok as [_ H]. unfold ok_is in H.
  destruct (getitem log 1) as [l | e]; [| discriminate H].
  apply Z.eqb_eq in H. subst l. reflexivity.
Qed.

(** The product of two non-zero elements is the element whose
    logarithm is the sum of theirs. *)
Lemma lut_mul_nonzero (x y : Z) :
  1 <= x <= field -> 1 <= y <= field ->
  exists lx ly z,
    getitem log x = Ok lx /\ getitem log y = Ok ly /\
    0 <= lx < field /\ 0 <= ly < field /\
    lut_mul exp log field x y = Ok z /\ 1 <= z <= field /\
    getitem log z = Ok ((lx + ly) mod field).
Proof.
  intros Hx Hy.
  destruct (log_spec x Hx) as (lx & Hlx & Rx & _).
  destruct (log_spec y Hy) as (ly & Hly & Ry & _).
  assert (Hk : 0 <= (lx + ly) mod field < field) by (apply Z.mod_pos_bound; lia).
  destruct (exp_spec _ Hk) as (z & Hz & Rz & Hlz).
  exists lx, ly, z. repeat split; try assumption; try lia.
  unfold lut_mul.
  replace ((x =? 0) || (y =? 0)) with false
    by (symmetry; apply orb_false_iff; split; apply Z.eqb_neq; lia).
  rewrite Hlx, Hly. cbn [mbind result_bind Py.bind]. unfold py_mod.
  replace (field =? 0) with false by (symmetry; apply Z.eqb_neq; lia).
  exact Hz.
Qed.

Lemma lut_mul_zero_l (y : Z) : lut_mul exp log field 0 y = Ok 0.
Proof. reflexivity. Qed.

Lemma lut_mul_zero_r (x : Z) : lut_mul exp log field x 0 = Ok 0.
Proof. unfold lut_mul. rewrite Z.eqb_refl, orb_true_r. reflexivity. Qed.

Lemma lut_mul_total (x y : Z) :
  0 <= x <= field -> 0 <= y <= field ->
  exists z, lut_mul exp log field x y = Ok z /\ 0 <= z <= field /\
            (z = 0 <-> x = 0 \/ y = 0).
Proof.
  intros Hx Hy.
  destruct (Z.eq_dec x 0) as [-> | Hx0];
    [exists 0; rewrite lut_mul_zero_l; repeat split; (lia || tauto) |].
  destruct (Z.eq_dec y 0) as [-> | Hy0];
    [exists 0; rewrite lut_mul_zero_r; repeat split; (lia || tauto) |].
  destruct (lut_mul_nonzero x y) as (lx & ly & z & _ & _ & _ & _ & Hz & Rz & _);
    [lia | lia |].
  exists z. repeat split; try assumption; lia.
Qed.

Lemma lut_mul_comm (x y : Z) :
  0 <= x <= field -> 0 <= y <= field ->
  lut_mul exp log field x y = lut_mul exp log field y x.
Proof.
  intros Hx Hy.
  destruct (Z.eq_dec x 0) as [-> | Hx0];
    [rewrite lut_mul_zero_l, lut_mul_zero_r; reflexivity |].
  destruct (Z.eq_dec y 0) as [-> | Hy0];
    [rewrite lut_mul_zero_l, lut_mul_zero_r; reflexivity |].
  destruct (log_spec x ltac:(lia)) as (lx & Hlx & _).
  destruct (log_spec y ltac:(lia)) as (ly & Hly & _).
  unfold lut_mul. rewrite (orb_comm (y =? 0)), Hlx, Hly.
  cbn [mbind result_bind Py.bind]. rewrite (Z.add_comm ly lx). reflexivity.
Qed.

Lemma lut_mul_one (x : Z) :
  0 <= x <= field -> lut_mul exp log field x 1 = Ok x.
Proof.
  intros Hx.
  destruct (Z.eq_dec x 0) as [-> | Hx0]; [reflexivity |].
  destruct (log_spec x ltac:(lia)) as (lx & Hlx & Rx & Hex).
  unfold lut_mul.
  replace ((x =? 0) || (1 =? 0)) with false
    by (symmetry; apply orb_false_iff; split; apply Z.eqb_neq; lia).
  rewrite Hlx, log_one. cbn [mbind result_bind Py.bind]. unfold py_mod.
  replace (field =? 0) with false by (symmetry; apply Z.eqb_neq; lia).
  rewrite Z.add_0_r, Z.mod_small by lia. exact Hex.
Qed.

Lemma lut_mul_assoc (x y z : Z) :
  0 <= x <= field -> 0 <= y <= field -> 0 <= z <= field ->
  (p ← lut_mul exp log field x y; lut_mul exp log field p z)
  = (q ← lut_mul exp log field y z; lut_mul exp log field x q).
Proof.
  intros Hx Hy Hz.
  destruct (lut_mul_total y z Hy Hz) as (q & Hq & Rq & Zq).
  destruct (lut_mul_total x y Hx Hy) as (p & Hp & Rp & Zp).
  rewrite Hp, Hq. cbn [mbind result_bind Py.bind].
  destruct (Z.eq_dec x 0) as [-> | Hx0].
  { assert (p = 0) by tauto. subst p. reflexivity. }
  destruct (Z.eq_dec y 0) as [-> | Hy0].
  { assert (p = 0) by tauto. assert (q = 0) by tauto. subst p q.
    rewrite lut_mul_zero_r. reflexivity. }
  destruct (Z.eq_dec z 0) as [-> | Hz0].
  { assert (q = 0) by tauto. subst q. rewrite !lut_mul_zero_r. reflexivity. }
  destruct (lut_mul_nonzero x y) as (lx & ly & p' & Hlx & Hly & Rx & Ry & Hp' & Rp' & Hlp);
    [lia | lia |].
  destruct (lut_mul_nonzero y z) as (ly' & lz & q' & Hly' & Hlz & _ & Rz & Hq' & Rq' & Hlq);
    [lia | lia |].
  rewrite Hp in Hp'. injection Hp' as <-. rewrite Hq in Hq'. injection Hq' as <-.
  rewrite Hly in Hly'. injection Hly' as <-.
  unfold lut_mul.
  replace ((p =? 0) || (z =? 0)) with false
    by (symmetry; apply orb_false_iff; split; apply Z.eqb_neq; lia).
  replace ((x =? 0) || (q =? 0)) with false
    by (symmetry; apply orb_false_iff; split; apply Z.eqb_neq; lia).
  rewrite Hlp, Hlz, Hlx, Hlq. cbn [mbind result_bind Py.bind]. unfold py_mod.
  replace (field =? 0) with false by (symmetry; apply Z.eqb_neq; lia).
  cbn [mbind result_bind Py.bind].
  rewrite Zplus_mod_idemp_l, Zplus_mod_idemp_r, Z.add_assoc. reflexivity.
Qed.

Lemma lut_div_mul (x y p : Z) :
  0 <= x <= field -> 1 <= y <= field ->
  lut_mul exp log field x y = Ok p ->
  lut_div exp log field p y = Ok x.
Proof.
  intros Hx Hy Hp. unfold lut_div.
  replace (y =? 0) with false by (symmetry; apply Z.eqb_neq; lia).
  destruct (Z.eq_dec x 0) as [-> | Hx0].
  { rewrite lut_mul_zero_l in Hp. injection Hp as <-. reflexivity. }
  destruct (lut_mul_nonzero x y) as (lx & ly & p' & Hlx & Hly & Rx & Ry & Hp' & Rp' & Hlp);
    [lia | lia |].
  rewrite Hp in Hp'. injection Hp' as <-.
  replace (p =? 0) with false by (symmetry; apply Z.eqb_neq; lia).
  rewrite Hlp, Hly. cbn [mbind result_bind Py.bind]. unfold py_mod.
  replace (field =? 0) with false by (symmetry; apply Z.eqb_neq; lia).
  cbn [mbind result_bind Py.bind].
  replace (((lx + ly) mod field - ly + field) mod field) with lx.
  - destruct (log_spec x ltac:(lia)) as (lx' & Hlx' & _ & Hex).
    rewrite Hlx in Hlx'. injection Hlx' as <-. exact Hex.
  - apply Z.mod_unique with (q := 1 - (lx + ly) / field); [lia |].
    rewrite (Z.mod_eq (lx + ly) field) by lia. lia.
Qed.

End Lut.

Lemma gf_mul_lut (g : Reedsolo.gf) (x y : Z) :
  Reedsolo.gf_mul (Some g) x y
  = lut_mul (Reedsolo.GF_EXP g) (Reedsolo.GF_LOG g) (Reedsolo.FIELD_SIZE g) x y.
Proof. reflexivity. Qed.

Lemma gf_div_lut (g : Reedsolo.gf) (x y : Z) :
  Reedsolo.gf_div (Some g) x y
  = lut_div (Reedsolo.GF_EXP g) (Reedsolo.GF_LOG g) (Reedsolo.FIELD_SIZE g) x y.
Proof. reflexivity. Qed.

Lemma gf_multiply_lut (g : Reedsolo6.gf) (x y : Z) :
  Reedsolo6.gf_multiply g x y
  = lut_mul (Reedsolo6.GF_EXP g) (Reedsolo6.GF_LOG g) (Reedsolo6.FIELD_SIZE g) x y.
Proof. reflexivity. Qed.

(** With the tables [init_gf()] builds for GF(2^8), [gf_mul] is total
    on bytes and makes the non-zero bytes a commutative group with unit
    1: the product is a byte, is 0 exactly when a factor is 0, does not
    depend on the order or the grouping of the factors, and [gf_div]
    undoes it; dividing by 0 raises ZeroDivisionError. *)
Theorem gf_mul_group_laws :
  exists g,
    Reedsolo.RSCodec_init = Ok g /\
    forall x y z,
      0 <= x <= 255 -> 0 <= y <= 255 -> 0 <= z <= 255 ->
      (exists p,
          Reedsolo.gf_mul (Some g) x y = Ok p /\ 0 <= p <= 255 /\
          (p = 0 <-> x = 0 \/ y = 0) /\
          Reedsolo.gf_mul (Some g) y x = Ok p /\
          (y <> 0 -> Reedsolo.gf_div (Some g) p y = Ok x)) /\
      Reedsolo.gf_mul (Some g) x 1 = Ok x /\
      (p ← Reedsolo.gf_mul (Some g) x y; Reedsolo.gf_mul (Some g) p z)
      = (q ← Reedsolo.gf_mul (Some g) y z; Reedsolo.gf_mul (Some g) x q) /\
      Reedsolo.gf_div (Some g) x 0 = Raise ZeroDivisionError.
Proof.
  assert (H : gf_tables_b Reedsolo.RSCodec_init = true) by (vm_compute; reflexivity).
  unfold gf_tables_b in H.
  destruct Reedsolo.RSCodec_init as [g | e]; [| discriminate H].
  apply andb_prop in H as [Hf Ht]. apply Z.eqb_eq in Hf.
  exists g. split; [reflexivity |].
  intros x y z Hx Hy Hz. rewrite !gf_mul_lut, Hf.
  split; [| split; [| split]].
  - destruct (lut_mul_total _ _ 255 ltac:(lia) Ht x y Hx Hy) as (p & Hp & Rp & Zp).
    exists p. split; [exact Hp | split; [exact Rp | split; [exact Zp | split]]].
    + rewrite <- Hp. symmetry. apply lut_mul_comm; (lia || assumption).
    + intros Hy0. rewrite gf_div_lut, Hf.
      apply (lut_div_mul _ _ 255 ltac:(lia) Ht x y p); (lia || assumption).
  - apply (lut_mul_one _ _ 255); (lia || assumption).
  - assert (E : forall a b, Reedsolo.gf_mul (Some g) a b
                            = lut_mul (Reedsolo.GF_EXP g) (Reedsolo.GF_LOG g) 255 a b)
      by (intros a b; rewrite gf_mul_lut, Hf; reflexivity).
    transitivity (p ← lut_mul (Reedsolo.GF_EXP g) (Reedsolo.GF_LOG g) 255 x y;
                  lut_mul (Reedsolo.GF_EXP g) (Reedsolo.GF_LOG g) 255 p z).
    { destruct (lut_mul _ _ 255 x y); [cbn; apply E | reflexivity]. }
    rewrite (lut_mul_assoc _ _ 255 ltac:(lia) Ht x y z Hx Hy Hz).
    destruct (lut_mul _ _ 255 y z); [cbn; symmetry; apply E | reflexivity].
  - reflexivity.
Qed.

Lemma gf_mul_group_laws_witness :
  exists g,
    Reedsolo.RSCodec_init = Ok g /\
    (exists p,
        Reedsolo.gf_mul (Some g) 2 128 = Ok p /\ 0 <= p <= 255 /\
        (p = 0 <-> 2 = 0 \/ 128 = 0) /\
        Reedsolo.gf_mul (Some g) 128 2 = Ok p /\
        (128 <> 0 -> Reedsolo.gf_div (Some g) p 128 = Ok 2)).
Proof.
  destruct gf_mul_group_laws as (g & Hg & H).
  exists g. split; [exact Hg |].
  apply (H 2 128 0); lia.
Defined.

(** With the tables [init_tables(0x43, 2, 6)] builds for GF(2^6),
    [gf_multiply] is total on the 64 field elements, agrees with the
    product [gf_multiply_no_lut] computes without tables, is 0 exactly
    when a factor is 0, and does not depend on the order or the
    grouping of the factors; 1 is its unit. *)
Theorem gf6_multiply_laws :
  exists g,
    Reedsolo6.init_tables 0x43 2 6 = Ok g /\
    forall x y z,
      0 <= x <= 63 -> 0 <= y <= 63 -> 0 <= z <= 63 ->
      (exists p,
          Reedsolo6.gf_multiply g x y = Ok p /\ 0 <= p <= 63 /\
          p = Reedsolo6.gf_multiply_no_lut x y 0x43 64 /\
          (p = 0 <-> x = 0 \/ y = 0) /\
          Reedsolo6.gf_multiply g y x = Ok p) /\
      Reedsolo6.gf_multiply g x 1 = Ok x /\
      (p ← Reedsolo6.gf_multiply g x y; Reedsolo6.gf_multiply g p z)
      = (q ← Reedsolo6.gf_multiply g y z; Reedsolo6.gf_multiply g x q).
Proof.
  assert (H : gf6_tables_b (Reedsolo6.init_tables 0x43 2 6) = true)
    by (vm_compute; reflexivity).
  assert (L : gf6_laws_b (Reedsolo6.init_tables 0x43 2 6) = true)
    by (vm_compute; reflexivity).
  unfold gf6_tables_b in H. unfold gf6_laws_b in L.
  destruct (Reedsolo6.init_tables 0x43 2 6) as [g | e]; [| discriminate H].
  apply andb_prop in H as [Hf Ht]. apply Z.eqb_eq in Hf.
  exists g. split; [reflexivity |].
  intros x y z Hx Hy Hz.
  assert (E : forall a b, Reedsolo6.gf_multiply g a b
                = lut_mul (Reedsolo6.GF_EXP g) (Reedsolo6.GF_LOG g) 63 a b)
    by (intros a b; rewrite gf_multiply_lut, Hf; reflexivity).
  split; [| split].
  - destruct (lut_mul_total _ _ 63 ltac:(lia) Ht x y Hx Hy) as (p & Hp & Rp & Zp).
    exists p. rewrite !E.
    split; [exact Hp | split; [exact Rp | split; [| split; [exact Zp |]]]].
    + pose proof (forallb_range _ _ L x ltac:(lia)) as Lx. cbn beta in Lx.
      pose proof (forallb_range _ _ Lx y ltac:(lia)) as Lxy. cbn beta in Lxy.
      rewrite E, Hp in Lxy.
      apply andb_prop in Lxy as [_ Lxy]. apply Z.eqb_eq in Lxy. exact Lxy.
    + rewrite <- Hp. symmetry. apply lut_mul_comm; (lia || assumption).
  - rewrite E. apply (lut_mul_one _ _ 63); (lia || assumption).
  - transitivity (p ← lut_mul (Reedsolo6.GF_EXP g) (Reedsolo6.GF_LOG g) 63 x y;
                  lut_mul (Reedsolo6.GF_EXP g) (Reedsolo6.GF_LOG g) 63 p z).
    { rewrite E. destruct (lut_mul _ _ 63 x y); [cbn; apply E | reflexivity]. }
    rewrite (lut_mul_assoc _ _ 63 ltac:(lia) Ht x y z Hx Hy Hz).
    rewrite E. destruct (lut_mul _ _ 63 y z); [cbn; symmetry; apply E | reflexivity].
Qed.

Lemma gf6_multiply_laws_witness :
  exists g,
    Reedsolo6.init_tables 0x43 2 6 = Ok g /\
    (exists p,
        Reedsolo6.gf_multiply g 2 32 = Ok p /\ 0 <= p <= 63 /\
        p = Reedsolo6.gf_multiply_no_lut 2 32 0x43 64 /\
        (p = 0 <-> 2 = 0 \/ 32 = 0) /\
        Reedsolo6.gf_multiply g 32 2 = Ok p).
Proof.
  destruct gf6_multiply_laws as (g & Hg & H).
  exists g. split; [exact Hg |].
  apply (H 2 32 0); lia.
Defined.

(** [gf_multiply_no_lut] without a primitive polynomial is the
    carry-less product of [bch.multiply]. *)
Lemma no_lut_loop_multiply (fc : Z) (fuel : nat) :
  forall a y idx r,
    0 <= y -> 0 <= idx ->
    Reedsolo6.no_lut_loop fuel (Z.shiftl a idx) y 0 fc r
    = multiply_loop fuel a y idx r.
Proof.
  induction fuel as [| fuel IH]; intros a y idx r Hy Hidx; [reflexivity |].
  cbn [Reedsolo6.no_lut_loop multiply_loop].
  destruct (Z.eqb_spec y 0) as [-> | Hne]; [reflexivity |].
  replace (y >? 0) with true by (symmetry; apply Z.gtb_lt; lia).
  change (0 >? 0) with false. cbn [andb].
  assert (Hl : Z.land y 1 = y mod 2)
    by (change 1 with (Z.ones 1); rewrite Z.land_ones by lia; reflexivity).
  rewrite Hl.
  rewrite Z.shiftl_shiftl by lia.
  rewrite <- IH by (try apply Z.shiftr_nonneg; lia).
  reflexivity.
Qed.

Theorem gf_multiply_no_lut_carryless (x y fc : Z) :
  0 <= y -> Reedsolo6.gf_multiply_no_lut x y 0 fc = multiply x y.
Proof.
  intros Hy. unfold Reedsolo6.gf_multiply_no_lut, multiply.
  rewrite <- (no_lut_loop_multiply fc _ x y 0 0 Hy ltac:(lia)).
  rewrite Z.shiftl_0_r. reflexivity.
Qed.

Lemma gf_multiply_no_lut_carryless_witness :
  Reedsolo6.gf_multiply_no_lut 29 5 0 256 = multiply 29 5.
Proof. apply (gf_multiply_no_lut_carryless 29 5 256). lia. Defined.

(** ** The encoder of [reedsolo.py] is total and systematic *)

Lemma for_each_inv {A S} (I : S -> Prop) (body : S -> A -> result S)
    (xs : list A) :
  (forall acc x, In x xs -> I acc -> exists acc', body acc x = Ok acc' /\ I acc') ->
  forall acc, I acc -> exists accf, for_each body xs acc = Ok accf /\ I accf.
Proof.
  induction xs as [| x xs IH]; intros Hbody acc Hacc.
  - exists acc. split; [reflexivity | exact Hacc].
  - destruct (Hbody acc x (or_introl eq_refl) Hacc) as (acc' & Hstep & Hacc').
    destruct (IH (fun a y Hy => Hbody a y (or_intror Hy)) acc' Hacc')
      as (accf & Hrun & Hf).
    exists accf. cbn [for_each]. rewrite Hstep. split; assumption.
Qed.

Lemma for_each_app {A S} (body : S -> A -> result S) (xs ys : list A) (acc : S) :
  for_each body (xs ++ ys) acc
  = Py.bind (for_each body xs acc) (for_each body ys).
Proof.
  revert acc. induction xs as [| x xs IH]; intros acc; [reflexivity |].
  cbn [app for_each]. destruct (body acc x) as [acc' | e]; [apply IH | reflexivity].
Qed.

Lemma range_succ (k : nat) :
  range (Z.of_nat (S k)) = (range (Z.of_nat k) ++ [Z.of_nat k])%list.
Proof.
  rewrite (range_split (Z.of_nat (S k)) (Z.of_nat k)) by lia.
  f_equal. f_equal. unfold range2.
  replace (Z.to_nat _) with 0%nat by lia. reflexivity.
Qed.

Lemma getitem_ok {A} (l : list A) (k : Z) :
  0 <= k < Z.of_nat (length l) ->
  exists x, getitem l k = Ok x /\ l !! Z.to_nat k = Some x.
Proof.
  intros Hk. unfold getitem, index.
  replace ((0 <=? k) && (k <? Z.of_nat (length l))) with true
    by (symmetry; apply andb_true_iff; split; [apply Z.leb_le | apply Z.ltb_lt]; lia).
  cbn [Py.bind].
  destruct (lookup_lt_is_Some_2 l (Z.to_nat k) ltac:(lia)) as [x Hx].
  exists x. rewrite Hx. split; reflexivity.
Qed.

Lemma byte_ok_uint8 (v : Z) : byte_ok v = true <-> uint8 v.
Proof.
  unfold byte_ok, uint8. rewrite andb_true_iff, Z.leb_le, Z.leb_le. lia.
Qed.

Lemma array_B_bytes (m : list Z) : Forall uint8 m -> array_B m = Ok m.
Proof.
  intros H. unfold array_B.
  replace (forallb byte_ok m) with true; [reflexivity |].
  symmetry. apply forallb_forall. intros x Hx. apply byte_ok_uint8.
  rewrite Forall_forall in H. apply H, list_elem_of_In, Hx.
Qed.

Lemma uint8_lxor (a b : Z) : uint8 a -> uint8 b -> uint8 (Z.lxor a b).
Proof.
  unfold uint8. change 256 with (2 ^ 8). intros Ha Hb.
  apply lxor_range; [lia | assumption ..].
Qed.

Lemma xor_into_bytes (n : Z) (m : list Z) (k v : Z) :
  bytes_n n m -> 0 <= k < n -> uint8 v ->
  exists m', Reedsolo.xor_into m k v = Ok m' /\ bytes_n n m'.
Proof.
  intros [Hlen Hb] Hk Hv. unfold Reedsolo.xor_into.
  destruct (getitem_ok m k ltac:(lia)) as (old & Hold & Hlook).
  rewrite Hold. cbn [mbind result_bind Py.bind].
  assert (Hold8 : uint8 old).
  { rewrite Forall_forall in Hb. apply Hb.
    eapply list_elem_of_lookup_2. exact Hlook. }
  unfold array_store, index.
  replace ((0 <=? k) && (k <? Z.of_nat (length m))) with true
    by (symmetry; apply andb_true_iff; split; [apply Z.leb_le | apply Z.ltb_lt]; lia).
  cbn [Py.bind].
  rewrite (proj2 (byte_ok_uint8 _) (uint8_lxor _ _ Hold8 Hv)).
  eexists. split; [reflexivity |]. split.
  - rewrite length_insert. exact Hlen.
  - apply Forall_insert; [exact Hb | apply uint8_lxor; assumption].
Qed.
